(** * SmartCache: a shallow embedding of [src/cache/SmartCache.ts]

    The class [SmartCache<T>] is modelled by explicit state passing: every
    method takes the object (record [SmartCache]) and returns the object it
    leaves behind, together with its result where it has one.

    Modelling conventions.
    - [Date.now()] is an argument [now : Z] (milliseconds) of every method
      that reads the clock; one call reads one clock value.
    - The entry table [cache : Map<string, SmartCacheEntry<T>>] is a JS [Map],
      which iterates in insertion order: it is an association list, see
      [JsMap].  The order matters because [intelligentEviction] feeds
      [Array.from(this.cache.entries())] to a stable sort.
    - [accessPatterns : Map<string, number[]>] is only ever read by key, so it
      is a [gmap string (list Z)].
    - Times, sizes and counters are integers ([Z]).  Eviction scores are
      JavaScript doubles in the source; here they are exact rationals ([Q]),
      i.e. the rounding of the double arithmetic is abstracted.
    - The platform functions behind [calculateSize], [compress] and
      [decompress] ([JSON.stringify], [Blob], [btoa], [atob], [JSON.parse])
      are Section variables.
    - The methods are [async]; a call is modelled as awaited before the next
      one starts.  The exception is [mset], which starts all its [set] calls
      at once: there a [set] is split at its [await]s and the suspended parts
      run from a first-in first-out job queue.
    - Of the statistics, [hitRate], [memoryUsage] and [topKeys] are modelled;
      the insight texts and the browser storage are not. *)

From Stdlib Require Import ZArith QArith Lqa Lia List Permutation Sorted.
From stdpp Require Import base option gmap strings list.
Import ListNotations.

Open Scope Z_scope.

(** ** JavaScript [Map] with string keys, in insertion order *)

Module JsMap.
Section Ops.
Context {V : Type}.

(** [m.get(k)] *)
Fixpoint get (k : string) (m : list (string * V)) : option V :=
  match m with
  | [] => None
  | (k', v) :: m' => if String.eqb k k' then Some v else get k m'
  end.

(** [m.has(k)] *)
Definition has (k : string) (m : list (string * V)) : bool :=
  match get k m with Some _ => true | None => false end.

(** [m.set(k, v)]: an existing key keeps its position, a new key goes last. *)
Fixpoint set (k : string) (v : V) (m : list (string * V)) : list (string * V) :=
  match m with
  | [] => [(k, v)]
  | (k', v') :: m' =>
      if String.eqb k k' then (k, v) :: m' else (k', v') :: set k v m'
  end.

(** [m.delete(k)] *)
Definition delete (k : string) (m : list (string * V)) : list (string * V) :=
  List.filter (fun kv => negb (String.eqb k (fst kv))) m.

Definition keys (m : list (string * V)) : list string := List.map fst m.

(** A [Map] holds each key once. *)
Definition wf (m : list (string * V)) : Prop := List.NoDup (keys m).
End Ops.
End JsMap.

(** ** Types of [src/types] *)

Record CacheOptions := {
  opt_ttl : option Z;
  opt_maxSize : option Z;
  opt_compression : option bool;
  opt_persistence : option bool
}.

Record SmartCacheEntry (T : Type) := {
  value : T;
  timestamp : Z;
  accessCount : Z;
  lastAccessed : Z;
  size : Z;
  tags : option (list string)
}.
Arguments value {T} _.
Arguments timestamp {T} _.
Arguments accessCount {T} _.
Arguments lastAccessed {T} _.
Arguments size {T} _.
Arguments tags {T} _.

(** The fields of the class.  [storageType] and [cleanupInterval] only concern
    the browser storage and the timer handle and are left out; the timer's
    callback is [cleanup] below. *)
Record SmartCache (T : Type) := {
  cache : list (string * SmartCacheEntry T);
  hitCount : Z;
  missCount : Z;
  compressionEnabled : bool;
  persistenceEnabled : bool;
  maxSize : Z;
  ttl : Z;
  accessPatterns : gmap string (list Z)
}.
Arguments cache {T} _.
Arguments hitCount {T} _.
Arguments missCount {T} _.
Arguments compressionEnabled {T} _.
Arguments persistenceEnabled {T} _.
Arguments maxSize {T} _.
Arguments ttl {T} _.
Arguments accessPatterns {T} _.

(** [x || d] on an optional number: [undefined] and [0] are falsy. *)
Definition or_default (x : option Z) (d : Z) : Z :=
  match x with
  | Some n => if n =? 0 then d else n
  | None => d
  end.

(** [private compressionThreshold = 1024] *)
Definition compressionThreshold : Z := 1024.

(** The names of the public methods of the class, in source order. *)
Definition public_methods : list string :=
  ["get"; "set"; "getStats"; "mget"; "mset"; "invalidateByTag"; "clear"]%string.

(** ** The eviction score, as a function of its five inputs

    [(age * 0.3) + (timeSinceAccess * 0.4) + (1 / (accessCount + 1) * 0.2)
     + (sizeWeight * 0.1) - (accessFrequency * 0.3)]

    The source evaluates this in doubles, rounding after every operation;
    here it is the exact rational.  Entries with the same five inputs score
    the same in both.  Entries whose exact scores are equal or closer than
    the rounding of the doubles, from different inputs, may be ranked the
    other way round by the source. *)
Definition weighted_score (age timeSinceAccess accessCnt : Z)
    (sizeWeight accessFrequency : Q) : Q :=
  (inject_Z age * 0.3 + inject_Z timeSinceAccess * 0.4
   + 1 / inject_Z (accessCnt + 1) * 0.2
   + sizeWeight * 0.1 - accessFrequency * 0.3)%Q.

(** [scores.sort((a, b) => b.score - a.score)]: descending and stable.
    Insertion from the right keeps equal scores in their original order. *)
Fixpoint insert_desc (x : string * Q) (l : list (string * Q)) : list (string * Q) :=
  match l with
  | [] => [x]
  | y :: l' =>
      if Qlt_le_dec (snd x) (snd y) then y :: insert_desc x l' else x :: l
  end.

Fixpoint sort_desc (l : list (string * Q)) : list (string * Q) :=
  match l with
  | [] => []
  | x :: l' => insert_desc x (sort_desc l')
  end.

(** [a] sorts before or with [b]: its score is at least as high. *)
Definition score_ge (a b : string * Q) : Prop := (snd b <= snd a)%Q.

(** [Math.ceil(n * 0.2)] for a [Map] size [n].  The double nearest to one
    fifth is 0.2 * (1 + 2^-54), so for every size below 2^50 the rounded
    product has the same ceiling as the exact n / 5. *)
Definition ceil_fifth (n : nat) : nat := Z.to_nat ((Z.of_nat n + 4) / 5).

Section SmartCacheOps.
Context {T : Type}.

(** [new Blob([JSON.stringify(value)]).size] *)
Variable calculateSize : T -> Z.
(** [{ __compressed: true, data: btoa(JSON.stringify(value)) }] *)
Variable compress : T -> T.
(** [JSON.parse(atob(value.data))] *)
Variable decode : T -> T.
(** [value && typeof value === 'object' && value.__compressed === true] *)
Variable isCompressed : T -> bool.

Definition decompress (v : T) : T :=
  if isCompressed v then decode v else v.

(** [constructor(options)], where no browser storage is present
    ([loadFromStorage] returns at once when [window] is undefined). *)
Definition new_SmartCache (options : CacheOptions) : SmartCache T :=
  {| cache := [];
     hitCount := 0;
     missCount := 0;
     compressionEnabled := default false (opt_compression options);
     persistenceEnabled := default false (opt_persistence options);
     maxSize := or_default (opt_maxSize options) 1000;
     ttl := or_default (opt_ttl options) 300000;
     accessPatterns := ∅ |}.

Definition with_cache (c : SmartCache T) (m : list (string * SmartCacheEntry T))
  : SmartCache T :=
  {| cache := m; hitCount := hitCount c; missCount := missCount c;
     compressionEnabled := compressionEnabled c;
     persistenceEnabled := persistenceEnabled c;
     maxSize := maxSize c; ttl := ttl c;
     accessPatterns := accessPatterns c |}.

Definition with_patterns (c : SmartCache T) (p : gmap string (list Z))
  : SmartCache T :=
  {| cache := cache c; hitCount := hitCount c; missCount := missCount c;
     compressionEnabled := compressionEnabled c;
     persistenceEnabled := persistenceEnabled c;
     maxSize := maxSize c; ttl := ttl c;
     accessPatterns := p |}.

Definition with_counts (c : SmartCache T) (h m : Z) : SmartCache T :=
  {| cache := cache c; hitCount := h; missCount := m;
     compressionEnabled := compressionEnabled c;
     persistenceEnabled := persistenceEnabled c;
     maxSize := maxSize c; ttl := ttl c;
     accessPatterns := accessPatterns c |}.

(** [updateAccessPattern(key)] *)
Definition updateAccessPattern (c : SmartCache T) (key : string) (now : Z)
  : SmartCache T :=
  let pattern := default [] (accessPatterns c !! key) ++ [now] in
  let pattern := if (100 <? length pattern)%nat then tl pattern else pattern in
  with_patterns c (<[key := pattern]> (accessPatterns c)).

(** [getAccessFrequency(key)] *)
Definition getAccessFrequency (c : SmartCache T) (key : string) (now : Z) : Q :=
  let pattern := default [] (accessPatterns c !! key) in
  if (length pattern <? 2)%nat then 0%Q
  else
    let recentAccesses := List.filter (fun time => now - time <? 60000) pattern in
    (inject_Z (Z.of_nat (length recentAccesses)) / 60)%Q.

(** The score of one entry inside [intelligentEviction]. *)
Definition score (c : SmartCache T) (now : Z) (key : string)
    (entry : SmartCacheEntry T) : Q :=
  let age := now - timestamp entry in
  let timeSinceAccess := now - lastAccessed entry in
  let accessFrequency := getAccessFrequency c key now in
  let sizeWeight := (inject_Z (size entry) / 1024)%Q in
  weighted_score age timeSinceAccess (accessCount entry) sizeWeight accessFrequency.

Definition scores (c : SmartCache T) (now : Z) : list (string * Q) :=
  List.map (fun ke => (fst ke, score c now (fst ke) (snd ke))) (cache c).

(** One turn of the eviction loop: [cache.delete(k); accessPatterns.delete(k)]. *)
Definition evict_key (c : SmartCache T) (k : string) : SmartCache T :=
  with_patterns (with_cache c (JsMap.delete k (cache c)))
                (delete k (accessPatterns c)).

(** The entries that are left once the keys [ks] have been evicted. *)
Definition survives (ks : list string) (ke : string * SmartCacheEntry T) : bool :=
  negb (existsb (String.eqb (fst ke)) ks).

(** The keys that [intelligentEviction] removes, in eviction order. *)
Definition victims (c : SmartCache T) (now : Z) : list string :=
  List.map fst (firstn (ceil_fifth (length (cache c))) (sort_desc (scores c now))).

(** [intelligentEviction()] *)
Definition intelligentEviction (c : SmartCache T) (now : Z) : SmartCache T :=
  fold_left evict_key (victims c now) c.

(** What [get] hands out for a stored value: it is decompressed when
    compression is on and the value is marked as compressed. *)
Definition returned_value (c : SmartCache T) (v : T) : T :=
  if compressionEnabled c && isCompressed v then decompress v else v.

(** [get(key)]; [None] is [undefined]. *)
Definition get (c : SmartCache T) (key : string) (now : Z)
  : option T * SmartCache T :=
  match JsMap.get key (cache c) with
  | None => (None, with_counts c (hitCount c) (missCount c + 1))
  | Some entry =>
      if ttl c <? now - timestamp entry then
        (None,
         with_counts (with_cache c (JsMap.delete key (cache c)))
                     (hitCount c) (missCount c + 1))
      else
        let c1 := updateAccessPattern c key now in
        let entry' := {| value := value entry;
                         timestamp := timestamp entry;
                         accessCount := accessCount entry + 1;
                         lastAccessed := now;
                         size := size entry;
                         tags := tags entry |} in
        let c2 := with_counts (with_cache c1 (JsMap.set key entry' (cache c1)))
                              (hitCount c1 + 1) (missCount c1) in
        (Some (returned_value c (value entry)), c2)
  end.

(** [this.cache.size >= this.maxSize] *)
Definition over_budget (c : SmartCache T) : bool :=
  maxSize c <=? Z.of_nat (length (cache c)).

(** The value that [set] stores for [value]. *)
Definition finalValue (c : SmartCache T) (v : T) : T :=
  if compressionEnabled c && (compressionThreshold <? calculateSize v)
  then compress v else v.

Definition new_entry (c : SmartCache T) (v : T) (tgs : option (list string))
    (now : Z) : SmartCacheEntry T :=
  {| value := finalValue c v;
     timestamp := now;
     accessCount := 0;
     lastAccessed := now;
     size := calculateSize (finalValue c v);
     tags := tgs |}.

(** [set(key, value, tags)].  [saveToStorage] writes outside the object and
    leaves it as it is. *)
Definition set (c : SmartCache T) (key : string) (v : T)
    (tgs : option (list string)) (now : Z) : SmartCache T :=
  let c1 := if over_budget c then intelligentEviction c now else c in
  let c2 := with_cache c1 (JsMap.set key (new_entry c v tgs now) (cache c1)) in
  updateAccessPattern c2 key now.

Definition has_tag (tag : string) (entry : SmartCacheEntry T) : bool :=
  match tags entry with
  | Some ts => existsb (String.eqb tag) ts
  | None => false
  end.

(** [invalidateByTag(tag)] *)
Definition invalidateByTag (c : SmartCache T) (tag : string) : SmartCache T :=
  with_cache c (List.filter (fun ke => negb (has_tag tag (snd ke))) (cache c)).

(** [cleanup()], the callback of the timer. *)
Definition cleanup (c : SmartCache T) (now : Z) : SmartCache T :=
  let expired :=
    List.map fst (List.filter (fun ke => ttl c <? now - timestamp (snd ke)) (cache c)) in
  fold_left evict_key expired c.

(** [clear()] *)
Definition clear (c : SmartCache T) : SmartCache T :=
  with_counts (with_patterns (with_cache c []) ∅) 0 0.

(** A call of a method that changes the object, with the clock value it
    reads. *)
Inductive Call :=
| CallSet (key : string) (v : T) (tgs : option (list string)) (now : Z)
| CallGet (key : string) (now : Z)
| CallInvalidateByTag (tag : string)
| CallCleanup (now : Z)
| CallClear.

Definition step (c : SmartCache T) (call : Call) : SmartCache T :=
  match call with
  | CallSet key v tgs now => set c key v tgs now
  | CallGet key now => snd (get c key now)
  | CallInvalidateByTag tag => invalidateByTag c tag
  | CallCleanup now => cleanup c now
  | CallClear => clear c
  end.

(** A sequence of awaited calls, oldest first. *)
Definition run (c : SmartCache T) (calls : list Call) : SmartCache T :=
  fold_left step calls c.

(** [get] calls on the keys of [acc], each at its clock value. *)
Definition get_calls (acc : list (string * Z)) : list Call :=
  List.map (fun kt => CallGet (fst kt) (snd kt)) acc.

(** The scenario of the specification: a cache of capacity 3, the keys
    [a], [b], [c] set in this order at the times [ta], [tb], [tc]. *)
Definition scenario_options : CacheOptions :=
  {| opt_ttl := None; opt_maxSize := Some 3;
     opt_compression := None; opt_persistence := None |}.

Definition scenario_inserted (va vb vc : T) (ta tb tc : Z) : SmartCache T :=
  set (set (set (new_SmartCache scenario_options) "a" va None ta)
           "b" vb None tb)
      "c" vc None tc.

(** ... then the [get] calls [acc] ... *)
Definition scenario_accessed (va vb vc : T) (ta tb tc : Z)
    (acc : list (string * Z)) : SmartCache T :=
  run (scenario_inserted va vb vc ta tb tc) (get_calls acc).

(** ... then [d] set at the time [td]. *)
Definition scenario (va vb vc vd : T) (ta tb tc : Z)
    (acc : list (string * Z)) (td : Z) : SmartCache T :=
  set (scenario_accessed va vb vc ta tb tc acc) "d" vd None td.

(** The object of the scenario once [a], [b], [c] were set at the same
    clock value [t0] and read [na], [nb] and 0 times, up to the time [td]. *)
Definition scenario_shape (va vb vc : T) (t0 td na nb : Z) (c : SmartCache T)
  : Prop :=
  maxSize c = 3 /\ ttl c = 300000 /\ compressionEnabled c = false
  /\ accessPatterns c !! "c"%string = Some [t0]
  /\ exists la lb,
       t0 <= la <= td /\ t0 <= lb <= td
       /\ cache c
          = [("a"%string,
              {| value := va; timestamp := t0; accessCount := na;
                 lastAccessed := la; size := calculateSize va; tags := None |});
             ("b"%string,
              {| value := vb; timestamp := t0; accessCount := nb;
                 lastAccessed := lb; size := calculateSize vb; tags := None |});
             ("c"%string,
              {| value := vc; timestamp := t0; accessCount := 0;
                 lastAccessed := t0; size := calculateSize vc; tags := None |})].

Definition is_set_on (key : string) (call : Call) : bool :=
  match call with
  | CallSet k _ _ _ => String.eqb key k
  | _ => false
  end.

(** The entry of [key] lives through [calls]: no call replaces it (a [set]
    on [key]) and [key] is in the table after every call. *)
Fixpoint entry_kept (c : SmartCache T) (key : string) (calls : list Call) : bool :=
  match calls with
  | [] => true
  | call :: rest =>
      negb (is_set_on key call)
      && JsMap.has key (cache (step c call))
      && entry_kept (step c call) key rest
  end.

End SmartCacheOps.

(** ** The composite score that the specification describes

    Four signals, each scaled to [0,1], with the weights 0.4 (idle time),
    0.3 (access frequency, inverted), 0.2 (age) and 0.1 (size).  It is only
    compared with [score]; no method uses it. *)
Definition normalized (x : Q) : Prop := (0 <= x /\ x <= 1)%Q.

Definition spec_composite (idleFactor frequencyFactor ageFactor sizeFactor : Q) : Q :=
  (0.4 * idleFactor + 0.3 * (1 - frequencyFactor)
   + 0.2 * ageFactor + 0.1 * sizeFactor)%Q.

(** ** An instance: a cache of strings of code units below 256

    [JSON.stringify] of such a string is the string between two quotes, with
    the quote and the backslash escaped by a backslash, the control
    characters written as a short escape or as [\u00XX], and everything else
    as it is; the [Blob] holds it in UTF-8, one byte per code unit below 128
    and two above.  A string is not an object, so [isCompressed] is false on
    it.  The caches below are constructed with compression off, so
    [compress] is never called; it is the identity here. *)
Module Str.
(** The bytes of one code unit inside [JSON.stringify(value)]. *)
Definition json_char_size (a : Ascii.ascii) : Z :=
  let n := Ascii.N_of_ascii a in
  if (n =? 34)%N || (n =? 92)%N then 2
  else if (n <? 32)%N then
    if (n =? 8)%N || (n =? 9)%N || (n =? 10)%N || (n =? 12)%N || (n =? 13)%N
    then 2 else 6
  else if (n <? 128)%N then 1 else 2.

Fixpoint json_size (v : string) : Z :=
  match v with
  | EmptyString => 0
  | String a rest => json_char_size a + json_size rest
  end.

Definition calculateSize (v : string) : Z := json_size v + 2.
Definition compress (v : string) : string := v.
Definition decode (v : string) : string := v.
Definition isCompressed (v : string) : bool := false.

Definition set := set calculateSize compress.
Definition get := get decode isCompressed.
Definition run := run calculateSize compress decode isCompressed.
Definition scenario := scenario calculateSize compress decode isCompressed.

Definition no_options : CacheOptions :=
  {| opt_ttl := None; opt_maxSize := None;
     opt_compression := None; opt_persistence := None |}.

Definition options_maxSize (m : Z) : CacheOptions :=
  {| opt_ttl := None; opt_maxSize := Some m;
     opt_compression := None; opt_persistence := None |}.
End Str.

(** ** The batch and statistics methods *)

(** A [set] that is suspended at one of its two [await]s. *)
Inductive Pending (T : Type) :=
| AfterCompress (key : string) (compressed : T)
| AfterEviction (key : string) (final : T) (sz : Z).
Arguments AfterCompress {T} _ _.
Arguments AfterEviction {T} _ _ _.

Section SmartCacheBatch.
Context {T : Type}.
Variable calculateSize : T -> Z.
Variable compress : T -> T.
Variable decode : T -> T.
Variable isCompressed : T -> bool.

(** The loop of [mget(keys)]: every key is read by an awaited [get], at the
    clock value paired with it, and kept in [results] when the answer is not
    [undefined]. *)
Fixpoint mget_loop (c : SmartCache T) (reads : list (string * Z))
    (results : list (string * T)) : list (string * T) * SmartCache T :=
  match reads with
  | [] => (results, c)
  | (key, now) :: rest =>
      let (v, c') := get decode isCompressed c key now in
      mget_loop c' rest
        (match v with
         | Some x => JsMap.set key x results
         | None => results
         end)
  end.

(** [mget(keys)] *)
Definition mget (c : SmartCache T) (reads : list (string * Z))
  : list (string * T) * SmartCache T :=
  mget_loop c reads [].

(** The end of [set], from the construction of the entry on; [tags] is
    [undefined] in the calls that [mset] makes. *)
Definition set_insert (c : SmartCache T) (key : string) (final : T) (sz : Z)
    (now : Z) : SmartCache T :=
  let entry := {| value := final; timestamp := now; accessCount := 0;
                  lastAccessed := now; size := sz; tags := None |} in
  updateAccessPattern (with_cache c (JsMap.set key entry (cache c))) key now.

(** [set] from the test of the budget on: either it evicts and is suspended
    at [await this.intelligentEviction()], or it runs to its end. *)
Definition set_check (c : SmartCache T) (key : string) (final : T) (sz : Z)
    (now : Z) : SmartCache T * list (Pending T) :=
  if over_budget c
  then (intelligentEviction c now, [AfterEviction key final sz])
  else (set_insert c key final sz now, []).

(** The part of [set(key, value)] that runs inside the call, up to its first
    [await]. *)
Definition set_start (c : SmartCache T) (key : string) (v : T) (now : Z)
  : SmartCache T * list (Pending T) :=
  if compressionEnabled c && (compressionThreshold <? calculateSize v)
  then (c, [AfterCompress key (compress v)])
  else set_check c key v (calculateSize v) now.

(** A suspended [set] runs on, to its next [await] or to its end. *)
Definition set_resume (c : SmartCache T) (p : Pending T) (now : Z)
  : SmartCache T * list (Pending T) :=
  match p with
  | AfterCompress key final => set_check c key final (calculateSize final) now
  | AfterEviction key final sz => (set_insert c key final sz now, [])
  end.

(** [entries.map(([key, value]) => this.set(key, value))]: every [set] is
    started in turn and what it leaves suspended joins the job queue. *)
Fixpoint start_all (c : SmartCache T) (entries : list (string * T)) (now : Z)
  : SmartCache T * list (Pending T) :=
  match entries with
  | [] => (c, [])
  | (key, v) :: rest =>
      let (c1, q1) := set_start c key v now in
      let (c2, q2) := start_all c1 rest now in
      (c2, q1 ++ q2)
  end.

(** One pass over the job queue, first in first out; the jobs that are
    suspended again are the next queue. *)
Fixpoint resume_all (c : SmartCache T) (queue : list (Pending T)) (now : Z)
  : SmartCache T * list (Pending T) :=
  match queue with
  | [] => (c, [])
  | p :: rest =>
      let (c1, q1) := set_resume c p now in
      let (c2, q2) := resume_all c1 rest now in
      (c2, q1 ++ q2)
  end.

(** [mset(entries)].  The [set] calls are started one after the other
    without being awaited; [await Promise.all(promises)] then lets the job
    queue run.  A [set] is suspended at most twice, so two passes empty the
    queue. *)
Definition mset (c : SmartCache T) (entries : list (string * T)) (now : Z)
  : SmartCache T :=
  let (c1, q1) := start_all c entries now in
  let (c2, q2) := resume_all c1 q1 now in
  fst (resume_all c2 q2 now).

(** [hitRate] of [getStats] and [getBasicStats], as an exact rational. *)
Definition hitRate (c : SmartCache T) : Q :=
  let totalRequests := hitCount c + missCount c in
  if 0 <? totalRequests
  then (inject_Z (hitCount c) / inject_Z totalRequests)%Q
  else 0%Q.

(** [memoryUsage] of [getStats] and [getBasicStats]. *)
Definition memoryUsage (c : SmartCache T) : Z :=
  fold_left (fun total ke => total + size (snd ke)) (cache c) 0.

(** [getBasicStats()] *)
Definition getBasicStats (c : SmartCache T) : Q * Z :=
  (hitRate c, memoryUsage c).

(** [topKeys] of [getStats]: the entries sorted by
    [b[1].accessCount - a[1].accessCount], the first ten, their keys. *)
Definition topKeys (c : SmartCache T) : list string :=
  List.map fst
    (firstn 10
       (sort_desc
          (List.map (fun ke => (fst ke, inject_Z (accessCount (snd ke))))
                    (cache c)))).

(** The number of [get] calls in [calls] after the last [clear]. *)
Fixpoint gets_since_clear (calls : list (@Call T)) (acc : Z) : Z :=
  match calls with
  | [] => acc
  | CallGet _ _ :: rest => gets_since_clear rest (acc + 1)
  | CallClear :: rest => gets_since_clear rest 0
  | _ :: rest => gets_since_clear rest acc
  end.

End SmartCacheBatch.

(** * Facts about the entry table *)

Module JsMapFacts.
Section Facts.
Context {V : Type}.
Implicit Types (m : list (string * V)) (k : string) (v : V).

Lemma get_In k v m : JsMap.get k m = Some v -> In (k, v) m.
Proof.
  induction m as [|[k' v'] m IH]; simpl; [discriminate|].
  destruct (String.eqb_spec k k') as [->|Hne]; intros H.
  - injection H as ->. now left.
  - right. now apply IH.
Qed.

Lemma get_None_keys k m : JsMap.get k m = None <-> ~ In k (JsMap.keys m).
Proof.
  induction m as [|[k' v'] m IH]; simpl; [tauto|].
  destruct (String.eqb_spec k k') as [->|Hne].
  - split; [discriminate|]. intros H. exfalso. apply H. now left.
  - rewrite IH. split; intros H; [intros [E|E]; [congruence|tauto]|tauto].
Qed.

Lemma In_get k v m : JsMap.wf m -> In (k, v) m -> JsMap.get k m = Some v.
Proof.
  unfold JsMap.wf.
  induction m as [|[k' v'] m IH]; simpl; [tauto|].
  intros Hnd [E|Hin].
  - injection E as -> ->. now rewrite String.eqb_refl.
  - apply List.NoDup_cons_iff in Hnd as [Hnotin Hnd].
    destruct (String.eqb_spec k k') as [->|Hne].
    + exfalso. apply Hnotin. change k' with (fst (k', v)). now apply in_map.
    + now apply IH.
Qed.

Lemma has_keys k m : JsMap.has k m = true <-> In k (JsMap.keys m).
Proof.
  unfold JsMap.has. destruct (JsMap.get k m) eqn:E.
  - split; [intros _|reflexivity].
    apply get_In in E. change k with (fst (k, v)). now apply in_map.
  - split; [discriminate|]. intros H. now apply get_None_keys in E.
Qed.

Lemma get_set_eq k v m : JsMap.get k (JsMap.set k v m) = Some v.
Proof.
  induction m as [|[k' v'] m IH]; simpl.
  - now rewrite String.eqb_refl.
  - destruct (String.eqb_spec k k') as [->|Hne]; simpl.
    + now rewrite String.eqb_refl.
    + destruct (String.eqb_spec k k'); [contradiction|exact IH].
Qed.

Lemma get_set_ne k k' v m :
  k <> k' -> JsMap.get k' (JsMap.set k v m) = JsMap.get k' m.
Proof.
  intros Hne. induction m as [|[k1 v1] m IH]; simpl.
  - destruct (String.eqb_spec k' k); [congruence|reflexivity].
  - destruct (String.eqb_spec k k1) as [->|Hne1]; simpl.
    + destruct (String.eqb_spec k' k1); [congruence|reflexivity].
    + destruct (String.eqb_spec k' k1); [reflexivity|exact IH].
Qed.

Lemma keys_set k v m :
  JsMap.keys (JsMap.set k v m)
  = if JsMap.has k m then JsMap.keys m else JsMap.keys m ++ [k].
Proof.
  unfold JsMap.has.
  induction m as [|[k' v'] m IH]; simpl; [reflexivity|].
  destruct (String.eqb_spec k k') as [->|Hne]; simpl; [reflexivity|].
  rewrite IH. now destruct (JsMap.get k m).
Qed.

Lemma length_set k v m :
  length (JsMap.set k v m)
  = if JsMap.has k m then length m else S (length m).
Proof.
  rewrite <- (length_map fst (JsMap.set k v m)).
  fold (JsMap.keys (JsMap.set k v m)). rewrite keys_set.
  destruct (JsMap.has k m); unfold JsMap.keys.
  - now rewrite length_map.
  - rewrite length_app, length_map. simpl. lia.
Qed.

Lemma wf_set k v m : JsMap.wf m -> JsMap.wf (JsMap.set k v m).
Proof.
  unfold JsMap.wf. intros Hnd. rewrite keys_set.
  destruct (JsMap.has k m) eqn:E; [exact Hnd|].
  apply List.NoDup_app.
  - exact Hnd.
  - apply List.NoDup_cons; [simpl; tauto|apply List.NoDup_nil].
  - intros x Hx [<-|[]].
    apply has_keys in Hx. congruence.
Qed.

Lemma keys_filter (f : string -> bool) m :
  JsMap.keys (List.filter (fun kv => f (fst kv)) m)
  = List.filter f (JsMap.keys m).
Proof.
  induction m as [|[k v] m IH]; simpl; [reflexivity|].
  destruct (f k); simpl; now rewrite IH.
Qed.

Lemma wf_filter (f : string * V -> bool) m :
  JsMap.wf m -> JsMap.wf (List.filter f m).
Proof.
  unfold JsMap.wf, JsMap.keys.
  induction m as [|[k v] m IH]; simpl; [trivial|].
  intros Hnd. apply List.NoDup_cons_iff in Hnd as [Hnotin Hnd].
  destruct (f (k, v)); simpl; [|now apply IH].
  apply List.NoDup_cons; [|now apply IH].
  intros Hin. apply Hnotin.
  apply in_map_iff in Hin as [[k1 v1] [E Hin]].
  apply filter_In in Hin as [Hin _].
  apply in_map_iff. now exists (k1, v1).
Qed.

Lemma wf_delete k m : JsMap.wf m -> JsMap.wf (JsMap.delete k m).
Proof. apply wf_filter. Qed.

Lemma get_filter (f : string * V -> bool) k v m :
  JsMap.wf m -> JsMap.get k m = Some v ->
  JsMap.get k (List.filter f m) = if f (k, v) then Some v else None.
Proof.
  intros Hwf Hget.
  destruct (f (k, v)) eqn:Ef.
  - apply In_get; [now apply wf_filter|].
    apply filter_In. split; [now apply get_In|exact Ef].
  - destruct (JsMap.get k (List.filter f m)) as [v'|] eqn:E; [|reflexivity].
    apply get_In, filter_In in E as [Hin Hf].
    apply (In_get _ _ _ Hwf) in Hin. congruence.
Qed.

Lemma get_filter_None (f : string * V -> bool) k m :
  JsMap.get k m = None -> JsMap.get k (List.filter f m) = None.
Proof.
  rewrite !get_None_keys. intros Hn Hin. apply Hn.
  apply in_map_iff in Hin as [[k1 v1] [E Hin]].
  apply filter_In in Hin as [Hin _].
  apply in_map_iff. now exists (k1, v1).
Qed.

Lemma get_delete_eq k m : JsMap.get k (JsMap.delete k m) = None.
Proof.
  apply get_None_keys. intros Hin.
  apply in_map_iff in Hin as [[k1 v1] [E Hin]].
  apply filter_In in Hin as [_ Hf]. simpl in *. subst k1.
  now rewrite String.eqb_refl in Hf.
Qed.

Lemma get_delete_ne k k' m :
  k <> k' -> JsMap.get k' (JsMap.delete k m) = JsMap.get k' m.
Proof.
  intros Hne. unfold JsMap.delete.
  induction m as [|[k1 v1] m IH]; simpl; [reflexivity|].
  destruct (String.eqb_spec k k1) as [->|Hne1]; simpl.
  - destruct (String.eqb_spec k' k1); [congruence|exact IH].
  - destruct (String.eqb_spec k' k1); [reflexivity|exact IH].
Qed.


(** Deleting a key that is present shortens the table by one. *)
Lemma length_delete_in k m :
  JsMap.wf m -> In k (JsMap.keys m) ->
  S (length (JsMap.delete k m)) = length m.
Proof.
  unfold JsMap.wf, JsMap.delete, JsMap.keys.
  induction m as [|[k1 v1] m IH]; simpl; [tauto|].
  intros Hnd Hin. apply List.NoDup_cons_iff in Hnd as [Hnotin Hnd].
  destruct (String.eqb_spec k k1) as [->|Hne]; simpl.
  - f_equal. clear IH Hin Hnd.
    induction m as [|[k2 v2] m IH]; simpl in *; [reflexivity|].
    destruct (String.eqb_spec k1 k2) as [->|Hne]; simpl.
    + exfalso. apply Hnotin. now left.
    + f_equal. apply IH. tauto.
  - f_equal. apply IH; [exact Hnd|]. destruct Hin; [congruence|assumption].
Qed.

Lemma keys_delete k m :
  JsMap.keys (JsMap.delete k m)
  = List.filter (fun k' => negb (String.eqb k k')) (JsMap.keys m).
Proof. apply (keys_filter (fun k' => negb (String.eqb k k'))). Qed.
End Facts.
End JsMapFacts.

(** * Facts about the stable descending sort *)

Lemma insert_desc_perm x l : Permutation (insert_desc x l) (x :: l).
Proof.
  induction l as [|y l IH]; simpl; [reflexivity|].
  destruct (Qlt_le_dec (snd x) (snd y)); [|reflexivity].
  rewrite IH. apply perm_swap.
Qed.

Lemma sort_desc_perm l : Permutation (sort_desc l) l.
Proof.
  induction l as [|x l IH]; simpl; [reflexivity|].
  rewrite insert_desc_perm. now apply perm_skip.
Qed.

Lemma insert_desc_sorted x l :
  StronglySorted score_ge l -> StronglySorted score_ge (insert_desc x l).
Proof.
  induction l as [|y l IH]; simpl; intros Hs.
  - constructor; [constructor|constructor].
  - apply StronglySorted_inv in Hs as [Hs Hall].
    destruct (Qlt_le_dec (snd x) (snd y)) as [Hlt|Hle].
    + constructor; [now apply IH|].
      apply List.Forall_forall. intros z Hz.
      apply (Permutation_in _ (insert_desc_perm x l)) in Hz as [<-|Hz].
      * unfold score_ge. now apply Qlt_le_weak.
      * rewrite List.Forall_forall in Hall. now apply Hall.
    + constructor; [now constructor|].
      constructor; [exact Hle|].
      apply List.Forall_forall. intros z Hz.
      rewrite List.Forall_forall in Hall. specialize (Hall z Hz).
      unfold score_ge in *. now apply Qle_trans with (snd y).
Qed.

Lemma sort_desc_sorted l : StronglySorted score_ge (sort_desc l).
Proof.
  induction l as [|x l IH]; simpl; [constructor|].
  now apply insert_desc_sorted.
Qed.

(** In a sorted list everything in a prefix scores at least as high as
    everything after it. *)
Lemma sorted_firstn_skipn n l x y :
  StronglySorted score_ge l ->
  In x (firstn n l) -> In y (skipn n l) -> score_ge x y.
Proof.
  intros Hs. revert n. induction Hs as [|a l Hs IH Hall]; intros n Hx Hy.
  - destruct n; contradiction.
  - destruct n as [|n]; simpl in *; [contradiction|].
    destruct Hx as [<-|Hx].
    + rewrite List.Forall_forall in Hall. apply Hall.
      rewrite <- (firstn_skipn n l). apply in_or_app. now right.
    + now apply (IH n).
Qed.

(** The head of the sorted list is the entry that scores strictly above all
    others, when there is one. *)
Lemma sort_desc_head_max (l : list (string * Q)) (x : string * Q) :
  In x l ->
  (forall y, In y l -> y <> x -> (snd y < snd x)%Q) ->
  exists rest, sort_desc l = x :: rest.
Proof.
  intros Hin Hmax.
  pose proof (sort_desc_sorted l) as Hs.
  pose proof (sort_desc_perm l) as Hp.
  destruct (sort_desc l) as [|h rest] eqn:E.
  - apply Permutation_nil in Hp. subst l. contradiction.
  - exists rest. f_equal.
    apply StronglySorted_inv in Hs as [_ Hall].
    assert (Hh : In h l) by (apply (Permutation_in _ Hp); now left).
    assert (Hx : In x (h :: rest)) by (apply (Permutation_in _ (Permutation_sym Hp)); exact Hin).
    destruct Hx as [E'|Hx]; [exact E'|].
    rewrite List.Forall_forall in Hall. specialize (Hall x Hx). unfold score_ge in Hall.
    assert (Hdec : {h = x} + {h <> x}) by (repeat decide equality).
    destruct Hdec as [E'|Hne]; [exact E'|].
    specialize (Hmax _ Hh Hne).
    exfalso. apply (Qlt_irrefl (snd x)).
    now apply Qle_lt_trans with (snd h).
Qed.

Lemma ceil_fifth_le n : (ceil_fifth n <= n)%nat.
Proof.
  unfold ceil_fifth.
  assert ((Z.of_nat n + 4) / 5 <= Z.of_nat n).
  { destruct (Z.eq_dec (Z.of_nat n) 0) as [->|Hn]; [reflexivity|].
    apply Z.div_le_upper_bound; lia. }
  lia.
Qed.

Lemma ceil_fifth_pos n : (0 < n)%nat -> (0 < ceil_fifth n)%nat.
Proof.
  unfold ceil_fifth. intros Hn.
  assert (1 <= (Z.of_nat n + 4) / 5) by (apply Z.div_le_lower_bound; lia).
  lia.
Qed.

Lemma ceil_fifth_lt n : (1 < n)%nat -> (ceil_fifth n < n)%nat.
Proof.
  unfold ceil_fifth. intros Hn.
  assert ((Z.of_nat n + 4) / 5 < Z.of_nat n) by (apply Z.div_lt_upper_bound; lia).
  lia.
Qed.

(** [ceil_fifth n] is the least integer that is at least [n / 5]. *)
Lemma ceil_fifth_spec n :
  Z.of_nat n <= 5 * Z.of_nat (ceil_fifth n) < Z.of_nat n + 5.
Proof.
  unfold ceil_fifth.
  pose proof (Z.div_mod (Z.of_nat n + 4) 5 ltac:(lia)) as Hdm.
  pose proof (Z.mod_pos_bound (Z.of_nat n + 4) 5 ltac:(lia)) as Hb.
  assert (0 <= (Z.of_nat n + 4) / 5) by (apply Z.div_pos; lia).
  rewrite Z2Nat.id by assumption. lia.
Qed.

(** * Facts about the methods *)

Section SmartCacheFacts.
Context {T : Type}.
Variable calculateSize : T -> Z.
Variable compress : T -> T.
Variable decode : T -> T.
Variable isCompressed : T -> bool.

Local Abbreviation cset := (set calculateSize compress).
Local Abbreviation cget := (get decode isCompressed).
Local Abbreviation cstep := (step calculateSize compress decode isCompressed).
Local Abbreviation crun := (run calculateSize compress decode isCompressed).
Local Abbreviation ckept :=
  (entry_kept calculateSize compress decode isCompressed).

Implicit Types (c : SmartCache T) (key k : string) (now : Z).

(** ** The eviction loop *)

Lemma filter_survives_nil (m : list (string * SmartCacheEntry T)) :
  List.filter (survives []) m = m.
Proof.
  induction m as [|x m IH]; simpl; [reflexivity|]. now rewrite IH.
Qed.

Lemma filter_survives_cons k ks (m : list (string * SmartCacheEntry T)) :
  List.filter (survives ks) (JsMap.delete k m) = List.filter (survives (k :: ks)) m.
Proof.
  unfold JsMap.delete, survives.
  induction m as [|[k1 e1] m IH]; simpl; [reflexivity|].
  rewrite (String.eqb_sym k1 k).
  destruct (String.eqb k k1); simpl; [exact IH|].
  destruct (existsb (String.eqb k1) ks); simpl; [exact IH|].
  now rewrite IH.
Qed.

Lemma cache_fold_evict ks c :
  cache (fold_left evict_key ks c) = List.filter (survives ks) (cache c).
Proof.
  revert c. induction ks as [|k ks IH]; intros c; simpl.
  - now rewrite filter_survives_nil.
  - rewrite IH. simpl. apply filter_survives_cons.
Qed.

Lemma patterns_fold_evict ks c k :
  accessPatterns (fold_left evict_key ks c) !! k
  = if existsb (String.eqb k) ks then None else accessPatterns c !! k.
Proof.
  revert c. induction ks as [|k1 ks IH]; intros c; simpl; [reflexivity|].
  rewrite IH. simpl.
  destruct (String.eqb_spec k k1) as [->|Hne]; simpl.
  - rewrite lookup_delete_eq. now destruct (existsb (String.eqb k1) ks).
  - rewrite lookup_delete_ne by congruence. reflexivity.
Qed.

Lemma config_fold_evict ks c :
  maxSize (fold_left evict_key ks c) = maxSize c
  /\ ttl (fold_left evict_key ks c) = ttl c
  /\ compressionEnabled (fold_left evict_key ks c) = compressionEnabled c.
Proof.
  revert c. induction ks as [|k ks IH]; intros c; simpl; [tauto|].
  destruct (IH (evict_key c k)) as (-> & -> & ->). simpl. tauto.
Qed.

Lemma length_fold_evict ks c :
  JsMap.wf (cache c) -> List.NoDup ks -> incl ks (JsMap.keys (cache c)) ->
  (length (cache (fold_left evict_key ks c)) + length ks = length (cache c))%nat.
Proof.
  revert c. induction ks as [|k ks IH]; intros c Hwf Hnd Hincl; simpl.
  - lia.
  - apply List.NoDup_cons_iff in Hnd as [Hnotin Hnd].
    assert (Hk : In k (JsMap.keys (cache c))) by (apply Hincl; now left).
    pose proof (JsMapFacts.length_delete_in k (cache c) Hwf Hk) as Hlen.
    enough (length (cache (fold_left evict_key ks (evict_key c k))) + length ks
            = length (cache (evict_key c k)))%nat as Hgoal
      by (simpl in Hgoal; lia).
    apply IH; simpl.
    + now apply JsMapFacts.wf_delete.
    + exact Hnd.
    + intros x Hx. rewrite JsMapFacts.keys_delete. apply filter_In. split.
      * apply Hincl. now right.
      * destruct (String.eqb_spec k x) as [->|]; [contradiction|reflexivity].
Qed.

(** ** The victims of [intelligentEviction] *)

Lemma keys_scores c now : List.map fst (scores c now) = JsMap.keys (cache c).
Proof.
  unfold scores, JsMap.keys. rewrite List.map_map. reflexivity.
Qed.

Lemma sorted_keys_perm c now :
  Permutation (List.map fst (sort_desc (scores c now))) (JsMap.keys (cache c)).
Proof.
  rewrite <- (keys_scores c now). apply Permutation_map, sort_desc_perm.
Qed.

Lemma victims_NoDup c now : JsMap.wf (cache c) -> List.NoDup (victims c now).
Proof.
  intros Hwf. unfold victims. rewrite <- firstn_map.
  apply (Permutation_NoDup (Permutation_sym (sorted_keys_perm c now))) in Hwf.
  rewrite <- (firstn_skipn (ceil_fifth (length (cache c)))) in Hwf.
  now apply List.NoDup_app_remove_r in Hwf.
Qed.

Lemma victims_incl c now : incl (victims c now) (JsMap.keys (cache c)).
Proof.
  intros k Hk. apply (Permutation_in _ (sorted_keys_perm c now)).
  unfold victims in Hk. rewrite <- firstn_map in Hk.
  rewrite <- (firstn_skipn (ceil_fifth (length (cache c)))).
  apply in_or_app. now left.
Qed.

Lemma length_victims c now :
  length (victims c now) = ceil_fifth (length (cache c)).
Proof.
  unfold victims. rewrite length_map, length_firstn.
  rewrite (Permutation_length (sort_desc_perm _)).
  unfold scores. rewrite length_map.
  pose proof (ceil_fifth_le (length (cache c))). lia.
Qed.

Lemma cache_intelligentEviction c now :
  cache (intelligentEviction c now)
  = List.filter (survives (victims c now)) (cache c).
Proof. apply cache_fold_evict. Qed.

Lemma wf_intelligentEviction c now :
  JsMap.wf (cache c) -> JsMap.wf (cache (intelligentEviction c now)).
Proof. rewrite cache_intelligentEviction. apply JsMapFacts.wf_filter. Qed.

Lemma length_intelligentEviction c now :
  JsMap.wf (cache c) ->
  (length (cache (intelligentEviction c now)) + ceil_fifth (length (cache c))
   = length (cache c))%nat.
Proof.
  intros Hwf. rewrite <- (length_victims c now).
  apply length_fold_evict;
    [exact Hwf|now apply victims_NoDup|apply victims_incl].
Qed.

(** ** [set] *)

Lemma cache_set c key v tgs now :
  cache (cset c key v tgs now)
  = JsMap.set key (new_entry calculateSize compress c v tgs now)
      (cache (if over_budget c then intelligentEviction c now else c)).
Proof. reflexivity. Qed.

Lemma config_set c key v tgs now :
  maxSize (cset c key v tgs now) = maxSize c
  /\ ttl (cset c key v tgs now) = ttl c
  /\ compressionEnabled (cset c key v tgs now) = compressionEnabled c.
Proof.
  unfold set. simpl.
  destruct (over_budget c); [apply config_fold_evict|tauto].
Qed.

Lemma set_wf c key v tgs now :
  JsMap.wf (cache c) -> JsMap.wf (cache (cset c key v tgs now)).
Proof.
  intros Hwf. rewrite cache_set. apply JsMapFacts.wf_set.
  destruct (over_budget c); [now apply wf_intelligentEviction|exact Hwf].
Qed.


(** ** The other methods *)

Lemma get_wf c key now :
  JsMap.wf (cache c) -> JsMap.wf (cache (snd (cget c key now))).
Proof.
  intros Hwf. unfold get.
  destruct (JsMap.get key (cache c)) as [e|]; [|exact Hwf].
  destruct (ttl c <? now - timestamp e); simpl.
  - now apply JsMapFacts.wf_delete.
  - now apply JsMapFacts.wf_set.
Qed.


Lemma config_get c key now :
  maxSize (snd (cget c key now)) = maxSize c
  /\ ttl (snd (cget c key now)) = ttl c
  /\ compressionEnabled (snd (cget c key now)) = compressionEnabled c.
Proof.
  unfold get.
  destruct (JsMap.get key (cache c)) as [e|]; [|simpl; tauto].
  destruct (ttl c <? now - timestamp e); simpl; tauto.
Qed.

Lemma cache_cleanup c now :
  cache (cleanup c now)
  = List.filter
      (survives (List.map fst
         (List.filter (fun ke => ttl c <? now - timestamp (snd ke)) (cache c))))
      (cache c).
Proof. apply cache_fold_evict. Qed.

Lemma step_config c call :
  maxSize (cstep c call) = maxSize c
  /\ ttl (cstep c call) = ttl c
  /\ compressionEnabled (cstep c call) = compressionEnabled c.
Proof.
  destruct call; simpl; try tauto.
  - apply (config_set c key v tgs now).
  - apply (config_get c key now).
  - apply config_fold_evict.
Qed.


Lemma run_config calls c :
  maxSize (crun c calls) = maxSize c
  /\ ttl (crun c calls) = ttl c
  /\ compressionEnabled (crun c calls) = compressionEnabled c.
Proof.
  revert c. induction calls as [|call calls IH]; intros c; [simpl; tauto|].
  change (crun c (call :: calls)) with (crun (cstep c call) calls).
  destruct (IH (cstep c call)) as (-> & -> & ->). apply step_config.
Qed.

Lemma step_wf c call : JsMap.wf (cache c) -> JsMap.wf (cache (cstep c call)).
Proof.
  intros Hwf. destruct call; simpl.
  - now apply set_wf.
  - now apply get_wf.
  - now apply JsMapFacts.wf_filter.
  - rewrite cache_cleanup. now apply JsMapFacts.wf_filter.
  - apply List.NoDup_nil.
Qed.




(** ** The entry of a key along a sequence of calls *)

(** A call that is not a [set] on [key] leaves the value and the creation
    time of the entry of [key] as they are, when it leaves the entry. *)
Lemma step_keeps_entry c call key e' :
  JsMap.wf (cache c) -> is_set_on key call = false ->
  JsMap.get key (cache (cstep c call)) = Some e' ->
  exists e, JsMap.get key (cache c) = Some e
            /\ timestamp e' = timestamp e /\ value e' = value e.
Proof.
  intros Hwf Hset Hget.
  assert (Hfilter : forall f, JsMap.get key (List.filter f (cache c)) = Some e' ->
                              JsMap.get key (cache c) = Some e').
  { intros f H. apply JsMapFacts.get_In, filter_In in H as [H _].
    now apply JsMapFacts.In_get. }
  destruct call as [k v tgs now|k now|tag|now|];
    unfold step in Hget; simpl in Hset.
  - apply String.eqb_neq in Hset.
    rewrite cache_set, JsMapFacts.get_set_ne in Hget by congruence.
    exists e'. split; [|tauto].
    destruct (over_budget c); [|exact Hget].
    rewrite cache_intelligentEviction in Hget. now apply Hfilter in Hget.
  - unfold get in Hget.
    destruct (JsMap.get k (cache c)) as [e1|] eqn:E1; [|now exists e'].
    destruct (ttl c <? now - timestamp e1); simpl in Hget.
    + destruct (String.eqb_spec k key) as [->|Hne].
      * now rewrite JsMapFacts.get_delete_eq in Hget.
      * rewrite JsMapFacts.get_delete_ne in Hget by exact Hne. now exists e'.
    + destruct (String.eqb_spec k key) as [->|Hne].
      * rewrite JsMapFacts.get_set_eq in Hget. injection Hget as <-.
        exists e1. simpl. tauto.
      * rewrite JsMapFacts.get_set_ne in Hget by exact Hne. now exists e'.
  - apply Hfilter in Hget. now exists e'.
  - rewrite cache_cleanup in Hget. apply Hfilter in Hget. now exists e'.
  - discriminate.
Qed.

Lemma run_keeps_entry calls c key e :
  JsMap.wf (cache c) -> JsMap.get key (cache c) = Some e ->
  ckept c key calls = true ->
  exists e', JsMap.get key (cache (crun c calls)) = Some e'
             /\ timestamp e' = timestamp e /\ value e' = value e.
Proof.
  revert c e. induction calls as [|call calls IH]; intros c e Hwf Hget Hkept.
  - exists e. simpl. tauto.
  - simpl in Hkept.
    apply andb_true_iff in Hkept as [Hkept Hrest].
    apply andb_true_iff in Hkept as [Hset Hhas].
    apply negb_true_iff in Hset.
    unfold JsMap.has in Hhas.
    destruct (JsMap.get key (cache (cstep c call))) as [e1|] eqn:E1;
      [|discriminate].
    destruct (step_keeps_entry c call key e1 Hwf Hset E1) as (e0 & H0 & Ht & Hv).
    rewrite Hget in H0. injection H0 as <-.
    destruct (IH (cstep c call) e1 (step_wf c call Hwf) E1 Hrest)
      as (e' & He' & Ht' & Hv').
    exists e'. split; [exact He'|]. split; congruence.
Qed.

(** C2. TTL correctness of [get]: take the entry that [set] stores for
    [key] at time [t], and any later calls that keep this entry (none
    replaces, evicts or removes it).  A [get] at a time [now] with
    [now - t > ttl] then answers [undefined] and leaves [key] out of the
    table; a [get] with [now - t <= ttl] answers the stored value, which is
    the value given to [set] itself when compression is off, and also when
    it is on and [decode] undoes [compress]. *)
Theorem get_ttl_correct c0 key (v : T) tgs (t : Z) (calls : list Call) now :
  JsMap.wf (cache c0) ->
  ckept (cset c0 key v tgs t) key calls = true ->
  let c := crun (cset c0 key v tgs t) calls in
  (ttl c0 < now - t ->
     fst (cget c key now) = None
     /\ JsMap.has key (cache (snd (cget c key now))) = false)
  /\ (now - t <= ttl c0 ->
      fst (cget c key now)
      = Some (returned_value decode isCompressed c0
                (finalValue calculateSize compress c0 v)))
  /\ (now - t <= ttl c0 -> compressionEnabled c0 = false ->
      fst (cget c key now) = Some v)
  /\ (now - t <= ttl c0 ->
      (forall x, isCompressed (compress x) = true /\ decode (compress x) = x) ->
      isCompressed v = false ->
      fst (cget c key now) = Some v).
Proof.
  intros Hwf Hkept c.
  destruct (run_keeps_entry calls (cset c0 key v tgs t) key
              (new_entry calculateSize compress c0 v tgs t))
    as (e & He & Ht & Hv).
  - now apply set_wf.
  - rewrite cache_set. apply JsMapFacts.get_set_eq.
  - exact Hkept.
  - simpl in Ht, Hv. fold c in He.
    destruct (run_config calls (cset c0 key v tgs t)) as (_ & Httl & Hcomp).
    destruct (config_set c0 key v tgs t) as (_ & Httl0 & Hcomp0).
    fold c in Httl, Hcomp. rewrite Httl0 in Httl. rewrite Hcomp0 in Hcomp.
    assert (Hhit : now - t <= ttl c0 ->
                   fst (cget c key now)
                   = Some (returned_value decode isCompressed c0
                             (finalValue calculateSize compress c0 v))).
    { intros Hle. unfold get. rewrite He, Ht, Httl.
      destruct (Z.ltb_spec (ttl c0) (now - t)); [lia|]. simpl.
      unfold returned_value. now rewrite Hv, Hcomp. }
    split; [|split; [|split]].
    + intros Hlt. unfold get. rewrite He, Ht, Httl.
      destruct (Z.ltb_spec (ttl c0) (now - t)); [|lia]. simpl.
      split; [reflexivity|].
      unfold JsMap.has. now rewrite JsMapFacts.get_delete_eq.
    + exact Hhit.
    + intros Hle Hoff. rewrite (Hhit Hle).
      unfold returned_value, finalValue. now rewrite Hoff.
    + intros Hle Hcodec Hraw. rewrite (Hhit Hle). f_equal.
      unfold returned_value, finalValue, decompress.
      destruct (compressionEnabled c0); [|reflexivity]. simpl.
      destruct (compressionThreshold <? calculateSize v).
      * destruct (Hcodec v) as [-> ->]. reflexivity.
      * now rewrite Hraw.
Qed.

(** ** What a [set] stores and what it evicts *)

Lemma has_set_mono k key e (m : list (string * SmartCacheEntry T)) :
  JsMap.has k m = true -> JsMap.has k (JsMap.set key e m) = true.
Proof.
  rewrite !JsMapFacts.has_keys, JsMapFacts.keys_set.
  destruct (JsMap.has key m); [trivial|]. intros H. apply in_or_app. now left.
Qed.

Lemma length_filter_mono {A} (f g : A -> bool) (l : list A) :
  (forall x, In x l -> f x = true -> g x = true) ->
  (length (List.filter f l) <= length (List.filter g l))%nat.
Proof.
  induction l as [|x l IH]; intros H; simpl; [lia|].
  assert (IH' : (length (List.filter f l) <= length (List.filter g l))%nat).
  { apply IH. intros y Hy. apply H. now right. }
  destruct (f x) eqn:Ef.
  - rewrite (H x (or_introl eq_refl) Ef). simpl. lia.
  - destruct (g x); simpl; lia.
Qed.

(** The keys of [c] that are gone from the table [m]. *)
Lemma length_gone_filter (f : string -> bool) c :
  JsMap.wf (cache c) ->
  (length (List.filter
             (fun k => negb (JsMap.has k
                (List.filter (fun ke => f (fst ke)) (cache c))))
             (JsMap.keys (cache c)))
   + length (List.filter (fun ke => f (fst ke)) (cache c))
   = length (cache c))%nat.
Proof.
  intros Hwf.
  rewrite (filter_ext_in _ (fun k => negb (f k))).
  - rewrite <- (length_map fst (List.filter _ (cache c))).
    fold (JsMap.keys (List.filter (fun ke => f (fst ke)) (cache c))).
    rewrite JsMapFacts.keys_filter.
    pose proof (filter_length f (JsMap.keys (cache c))) as H.
    unfold JsMap.keys in *. rewrite length_map in H. lia.
  - intros k Hk. f_equal.
    destruct (f k) eqn:Ef.
    + apply JsMapFacts.has_keys. rewrite JsMapFacts.keys_filter.
      apply filter_In. tauto.
    + destruct (JsMap.has k _) eqn:Eh; [|reflexivity].
      apply JsMapFacts.has_keys in Eh. rewrite JsMapFacts.keys_filter in Eh.
      apply filter_In in Eh. destruct Eh. congruence.
Qed.

(** C3 (amended). [set] has no rejection path: whatever the measured size
    of the value and whatever the budget, the call stores the new entry
    under its key; while the table is below [maxSize] it does so without
    removing any other entry. *)
Theorem set_always_stores c key (v : T) tgs now :
  JsMap.get key (cache (cset c key v tgs now))
  = Some (new_entry calculateSize compress c v tgs now)
  /\ (over_budget c = false ->
      forall k, k <> key ->
        JsMap.get k (cache (cset c key v tgs now)) = JsMap.get k (cache c)).
Proof.
  rewrite cache_set. split.
  - apply JsMapFacts.get_set_eq.
  - intros -> k Hne. apply JsMapFacts.get_set_ne. congruence.
Qed.

(** C4. Eviction batch bound: a [set] removes at most
    [ceil (n * 0.2)] of the [n] keys that the table held before the call;
    [intelligentEviction] removes exactly that many, never more; and with
    more than one entry it does not empty the table. *)
Theorem eviction_batch_bound c key (v : T) tgs now :
  JsMap.wf (cache c) ->
  let n := length (cache c) in
  let evicted :=
    List.filter (fun k => negb (JsMap.has k (cache (cset c key v tgs now))))
                (JsMap.keys (cache c)) in
  (length evicted <= ceil_fifth n)%nat
  /\ Z.of_nat n <= 5 * Z.of_nat (ceil_fifth n) < Z.of_nat n + 5
  /\ (length (cache (intelligentEviction c now)) + ceil_fifth n = n)%nat
  /\ ((1 < n)%nat -> (0 < length (cache (intelligentEviction c now)))%nat).
Proof.
  intros Hwf n evicted.
  pose proof (length_intelligentEviction c now Hwf) as Hlen. fold n in Hlen.
  split; [|split; [apply ceil_fifth_spec|split; [exact Hlen|]]].
  - subst evicted. rewrite cache_set.
    set (c1 := if over_budget c then intelligentEviction c now else c).
    transitivity (length (List.filter (fun k => negb (JsMap.has k (cache c1)))
                            (JsMap.keys (cache c)))).
    + apply length_filter_mono. intros k _ Hk.
      apply negb_true_iff in Hk. apply negb_true_iff.
      destruct (JsMap.has k (cache c1)) eqn:E; [|reflexivity].
      now rewrite (has_set_mono _ _ _ _ E) in Hk.
    + subst c1. destruct (over_budget c).
      * rewrite cache_intelligentEviction in *.
        pose proof (length_gone_filter
                      (fun k => negb (existsb (String.eqb k) (victims c now)))
                      c Hwf) as Hg.
        unfold survives in *. fold n in Hg. lia.
      * rewrite (filter_ext_in _ (fun _ => false)).
        -- clear. induction (JsMap.keys (cache c)); simpl; [lia|assumption].
        -- intros k Hk. apply JsMapFacts.has_keys in Hk. now rewrite Hk.
  - intros Hn. pose proof (ceil_fifth_lt n Hn). lia.
Qed.





(** C6. Tag consistency: after [invalidateByTag(tag)], a [get] on any key
    whose entry carried [tag] answers [undefined], at any time, and no entry
    left in the table carries [tag]. *)
Theorem invalidateByTag_consistent c (tag : string) :
  JsMap.wf (cache c) ->
  (forall key entry now,
      JsMap.get key (cache c) = Some entry -> has_tag tag entry = true ->
      fst (cget (invalidateByTag c tag) key now) = None)
  /\ (forall key entry,
        In (key, entry) (cache (invalidateByTag c tag)) ->
        has_tag tag entry = false).
Proof.
  intros Hwf. split.
  - intros key entry now Hget Htag. unfold get. simpl.
    rewrite (JsMapFacts.get_filter _ key entry _ Hwf Hget). simpl.
    now rewrite Htag.
  - intros key entry Hin. simpl in Hin.
    apply filter_In in Hin as [_ H]. simpl in H.
    now apply negb_true_iff in H.
Qed.

(** C8 (amended). The eviction score is the plain (not normalised) sum
    [0.3 * age + 0.4 * idle + 0.2 / (accessCount + 1) + 0.1 * size / 1024
     - 0.3 * frequency], in milliseconds, kilobytes and accesses per second.
    Its coefficients are constants: the score of an entry is the same under
    every configuration of the cache.  An entry created [d] ms earlier scores
    [0.3 * d] higher, one last read [d] ms earlier [0.4 * d] higher, one
    larger by [d] bytes [0.1 * d / 1024] higher, without any bound. *)
Theorem score_composition c now key (entry : SmartCacheEntry T) :
  (score c now key entry
   == 0.3 * inject_Z (now - timestamp entry)
      + 0.4 * inject_Z (now - lastAccessed entry)
      + 0.2 * (1 / inject_Z (accessCount entry + 1))
      + 0.1 * (inject_Z (size entry) / 1024)
      - 0.3 * getAccessFrequency c key now)%Q
  /\ (forall c' : SmartCache T,
        accessPatterns c' = accessPatterns c ->
        score c' now key entry = score c now key entry)
  /\ (forall d : Z,
        score c now key
          {| value := value entry; timestamp := timestamp entry - d;
             accessCount := accessCount entry;
             lastAccessed := lastAccessed entry;
             size := size entry; tags := tags entry |}
        == score c now key entry + 0.3 * inject_Z d)%Q
  /\ (forall d : Z,
        score c now key
          {| value := value entry; timestamp := timestamp entry;
             accessCount := accessCount entry;
             lastAccessed := lastAccessed entry - d;
             size := size entry; tags := tags entry |}
        == score c now key entry + 0.4 * inject_Z d)%Q
  /\ (forall d : Z,
        score c now key
          {| value := value entry; timestamp := timestamp entry;
             accessCount := accessCount entry;
             lastAccessed := lastAccessed entry;
             size := size entry + d; tags := tags entry |}
        == score c now key entry + 0.1 * (inject_Z d / 1024))%Q.
Proof.
  split; [|split; [|split; [|split]]].
  - unfold score, weighted_score. ring.
  - intros c' Hp. unfold score, getAccessFrequency. now rewrite Hp.
  - intros d. unfold score, weighted_score. simpl.
    replace (now - (timestamp entry - d)) with ((now - timestamp entry) + d)
      by lia.
    rewrite (inject_Z_plus (now - timestamp entry) d). ring.
  - intros d. unfold score, weighted_score. simpl.
    replace (now - (lastAccessed entry - d)) with ((now - lastAccessed entry) + d)
      by lia.
    rewrite (inject_Z_plus (now - lastAccessed entry) d). ring.
  - intros d. unfold score, weighted_score. simpl.
    rewrite (inject_Z_plus (size entry) d). unfold Qdiv. ring.
Qed.

Lemma run_wf calls c :
  JsMap.wf (cache c) -> JsMap.wf (cache (crun c calls)).
Proof.
  revert c. induction calls as [|call calls IH]; intros c Hwf; [exact Hwf|].
  apply (IH (cstep c call)). now apply step_wf.
Qed.

Lemma filter_idem {A} (f : A -> bool) (l : list A) :
  List.filter f (List.filter f l) = List.filter f l.
Proof.
  induction l as [|x l IH]; simpl; [reflexivity|].
  destruct (f x) eqn:E; simpl; [rewrite E, IH|]; now try rewrite IH.
Qed.

(** C9 (amended). The class has no [delete] method.  The removals that it
    does offer, [invalidateByTag] and [clear], answer nothing and are
    idempotent: a second call in a row leaves the object as the first call
    left it. *)
Theorem removal_is_idempotent c (tag : string) :
  ~ In "delete"%string public_methods
  /\ invalidateByTag (invalidateByTag c tag) tag = invalidateByTag c tag
  /\ clear (clear c) = clear c.
Proof.
  split; [|split].
  - simpl. intros H. repeat destruct H as [H|H]; try discriminate H. exact H.
  - unfold invalidateByTag, with_cache. simpl. now rewrite filter_idem.
  - reflexivity.
Qed.

(** ** The scenario of the specification *)

Section Scenario.
Variables (va vb vc : T) (t0 td : Z).

Local Abbreviation shape := (scenario_shape calculateSize va vb vc t0 td).

Lemma shape_inserted :
  t0 <= td ->
  shape 0 0 (scenario_inserted calculateSize compress va vb vc t0 t0 t0).
Proof.
  intros Htd. unfold scenario_shape.
  repeat split; try reflexivity.
  exists t0, t0. repeat split; try lia; reflexivity.
Qed.

Lemma shape_get_a na nb c tau :
  td - t0 <= 300000 -> t0 <= tau <= td ->
  shape na nb c -> shape (na + 1) nb (snd (cget c "a" tau)).
Proof.
  intros Httl Htau (Hm & Ht & Hc & Hp & la & lb & Hla & Hlb & Hcache).
  unfold get. rewrite Hcache. simpl. rewrite Ht.
  destruct (Z.ltb_spec 300000 (tau - t0)); [lia|]. simpl.
  unfold scenario_shape. simpl. rewrite Hcache. simpl.
  repeat split; try assumption.
  - rewrite lookup_insert_ne by discriminate. exact Hp.
  - exists tau, lb. repeat split; try lia; reflexivity.
Qed.

Lemma shape_get_b na nb c tau :
  td - t0 <= 300000 -> t0 <= tau <= td ->
  shape na nb c -> shape na (nb + 1) (snd (cget c "b" tau)).
Proof.
  intros Httl Htau (Hm & Ht & Hc & Hp & la & lb & Hla & Hlb & Hcache).
  unfold get. rewrite Hcache. simpl. rewrite Ht.
  destruct (Z.ltb_spec 300000 (tau - t0)); [lia|]. simpl.
  unfold scenario_shape. simpl. rewrite Hcache. simpl.
  repeat split; try assumption.
  - rewrite lookup_insert_ne by discriminate. exact Hp.
  - exists la, tau. repeat split; try lia; reflexivity.
Qed.

Lemma shape_accessed acc : forall c na nb,
  td - t0 <= 300000 ->
  List.Forall (fun kt => (fst kt = "a"%string \/ fst kt = "b"%string)
                         /\ t0 <= snd kt <= td) acc ->
  shape na nb c ->
  shape (na + Z.of_nat (count_occ String.string_dec (List.map fst acc) "a"%string))
        (nb + Z.of_nat (count_occ String.string_dec (List.map fst acc) "b"%string))
        (crun c (get_calls acc)).
Proof.
  induction acc as [|[k tau] acc IH]; intros c na nb Httl Hall Hshape.
  - simpl. now rewrite !Z.add_0_r.
  - apply List.Forall_cons_iff in Hall as [[Hk Htau] Hall]. simpl in Hk, Htau.
    change (crun c (get_calls ((k, tau) :: acc)))
      with (crun (snd (cget c k tau)) (get_calls acc)).
    destruct Hk as [-> | ->]; simpl List.map; simpl count_occ.
    + replace (na + Z.of_nat (S (count_occ String.string_dec (List.map fst acc) "a"%string)))
        with ((na + 1) + Z.of_nat (count_occ String.string_dec (List.map fst acc) "a"%string))
        by lia.
      apply IH; [exact Httl|exact Hall|]. now apply shape_get_a.
    + replace (nb + Z.of_nat (S (count_occ String.string_dec (List.map fst acc) "b"%string)))
        with ((nb + 1) + Z.of_nat (count_occ String.string_dec (List.map fst acc) "b"%string))
        by lia.
      apply IH; [exact Httl|exact Hall|]. now apply shape_get_b.
Qed.

Lemma getAccessFrequency_nonneg (c : SmartCache T) key now :
  (0 <= getAccessFrequency c key now)%Q.
Proof.
  unfold getAccessFrequency.
  destruct (length (default [] (accessPatterns c !! key)) <? 2)%nat.
  - apply Qle_refl.
  - apply Qle_shift_div_l; [reflexivity|].
    rewrite Qmult_0_l. change 0%Q with (inject_Z 0). rewrite <- Zle_Qle. lia.
Qed.

Lemma shape_victims c :
  calculateSize va <= calculateSize vc -> calculateSize vb <= calculateSize vc ->
  shape 3 3 c -> victims c td = ["c"%string].
Proof.
  intros Hsa Hsb (Hm & Ht & Hc & Hp & la & lb & Hla & Hlb & Hcache).
  unfold victims. rewrite Hcache.
  change (ceil_fifth (length _)) with 1%nat.
  set (ec := {| value := vc; timestamp := t0; accessCount := 0;
                lastAccessed := t0; size := calculateSize vc; tags := None |}).
  destruct (sort_desc_head_max (scores c td) ("c"%string, score c td "c" ec))
    as [rest Hsort].
  - unfold scores. rewrite Hcache. simpl. tauto.
  - assert (Hfc : getAccessFrequency c "c" td = 0%Q).
    { unfold getAccessFrequency. now rewrite Hp. }
    pose proof (getAccessFrequency_nonneg c "a" td) as Hfa.
    pose proof (getAccessFrequency_nonneg c "b" td) as Hfb.
    assert (Hia : (inject_Z (td - la) <= inject_Z (td - t0))%Q)
      by (rewrite <- Zle_Qle; lia).
    assert (Hib : (inject_Z (td - lb) <= inject_Z (td - t0))%Q)
      by (rewrite <- Zle_Qle; lia).
    assert (Hza : (inject_Z (calculateSize va) <= inject_Z (calculateSize vc))%Q)
      by (rewrite <- Zle_Qle; lia).
    assert (Hzb : (inject_Z (calculateSize vb) <= inject_Z (calculateSize vc))%Q)
      by (rewrite <- Zle_Qle; lia).
    unfold scores. rewrite Hcache. simpl.
    intros y [<-|[<-|[<-|[]]]] Hne; [| |exfalso; apply Hne; reflexivity];
      simpl; unfold score, weighted_score; simpl; rewrite Hfc.
    + change (inject_Z (3 + 1)) with 4%Q. change (inject_Z (0 + 1)) with 1%Q.
      unfold Qdiv. change (/ 1024)%Q with (1#1024)%Q.
      change (/ 4)%Q with (1#4)%Q. change (/ 1)%Q with 1%Q. lra.
    + change (inject_Z (3 + 1)) with 4%Q. change (inject_Z (0 + 1)) with 1%Q.
      unfold Qdiv. change (/ 1024)%Q with (1#1024)%Q.
      change (/ 4)%Q with (1#4)%Q. change (/ 1)%Q with 1%Q. lra.
  - unfold scores in Hsort. rewrite Hcache in Hsort.
    unfold scores. rewrite Hcache. rewrite Hsort. reflexivity.
Qed.

(** C5 (amended). The scenario with [a], [b] and [c] set at the same clock
    value [t0], the values of [a] and [b] measuring no more than that of
    [c], then [a] and [b] read three times each (in any order, at any times
    up to [td]) and [d] set at [td], all within the time to live: the
    eviction run by the [set] of [d] removes [c] and nothing else, so that
    [a], [b] and [d] are read back with their values and [c] is not
    found. *)
Theorem scenario_evicts_c (vd : T) (acc : list (string * Z)) (n : Z) :
  calculateSize va <= calculateSize vc -> calculateSize vb <= calculateSize vc ->
  List.Forall (fun kt => (fst kt = "a"%string \/ fst kt = "b"%string)
                         /\ t0 <= snd kt <= td) acc ->
  count_occ String.string_dec (List.map fst acc) "a"%string = 3%nat ->
  count_occ String.string_dec (List.map fst acc) "b"%string = 3%nat ->
  t0 <= td -> td - t0 <= 300000 -> n - t0 <= 300000 -> n - td <= 300000 ->
  let before := scenario_accessed calculateSize compress decode isCompressed
                  va vb vc t0 t0 t0 acc in
  let s := scenario calculateSize compress decode isCompressed
             va vb vc vd t0 t0 t0 acc td in
  victims before td = ["c"%string]
  /\ JsMap.keys (cache s) = ["a"; "b"; "d"]%string
  /\ fst (cget s "a" n) = Some va
  /\ fst (cget s "b" n) = Some vb
  /\ fst (cget s "d" n) = Some vd
  /\ fst (cget s "c" n) = None.
Proof.
  intros Hsa Hsb Hall Hna Hnb Htd Httl Hn0 Hnd before s.
  assert (Hshape : shape 3 3 before).
  { pose proof (shape_accessed acc _ 0 0 Httl Hall (shape_inserted Htd)) as H.
    now rewrite Hna, Hnb in H. }
  pose proof (shape_victims before Hsa Hsb Hshape) as Hv.
  destruct Hshape as (Hm & Ht & Hc & Hp & la & lb & Hla & Hlb & Hcache).
  assert (Hs : cache s
               = [("a"%string,
                   {| value := va; timestamp := t0; accessCount := 3;
                      lastAccessed := la; size := calculateSize va; tags := None |});
                  ("b"%string,
                   {| value := vb; timestamp := t0; accessCount := 3;
                      lastAccessed := lb; size := calculateSize vb; tags := None |});
                  ("d"%string,
                   {| value := vd; timestamp := td; accessCount := 0;
                      lastAccessed := td; size := calculateSize vd; tags := None |})]).
  { assert (Hob : over_budget before = true)
      by (unfold over_budget; now rewrite Hm, Hcache).
    unfold s, scenario. fold before.
    rewrite cache_set, Hob, cache_intelligentEviction, Hv, Hcache. simpl.
    unfold new_entry, finalValue. now rewrite Hc. }
  destruct (config_set before "d" vd None td)
    as (_ & Hts & Hcs).
  fold before in Hts, Hcs. 
  change (cset before "d" vd None td) with s in Hts, Hcs.
  rewrite Ht in Hts. rewrite Hc in Hcs.
  split; [exact Hv|]. clearbody s. split; [now rewrite Hs|].
  repeat split; unfold get; rewrite Hs; simpl; try reflexivity; rewrite Hts.
  - destruct (Z.ltb_spec 300000 (n - t0)); [lia|]. simpl.
    unfold returned_value. now rewrite Hcs.
  - destruct (Z.ltb_spec 300000 (n - t0)); [lia|]. simpl.
    unfold returned_value. now rewrite Hcs.
  - destruct (Z.ltb_spec 300000 (n - td)); [lia|]. simpl.
    unfold returned_value. now rewrite Hcs.
Qed.
End Scenario.

(** ** The access patterns and the counters along a sequence of calls *)

Local Abbreviation cmget := (mget decode isCompressed).
Local Abbreviation cmset := (mset calculateSize compress).

Lemma counts_fold_evict ks c :
  hitCount (fold_left evict_key ks c) = hitCount c
  /\ missCount (fold_left evict_key ks c) = missCount c.
Proof.
  revert c. induction ks as [|k ks IH]; intros c; simpl; [tauto|].
  destruct (IH (evict_key c k)) as (-> & ->). simpl. tauto.
Qed.

Lemma patterns_set c key v tgs now :
  accessPatterns (cset c key v tgs now)
  = accessPatterns
      (updateAccessPattern (if over_budget c then intelligentEviction c now else c)
         key now).
Proof. reflexivity. Qed.

Lemma updateAccessPattern_lookup c key now k :
  accessPatterns (updateAccessPattern c key now) !! k
  = if String.eqb k key
    then Some (let pattern := default [] (accessPatterns c !! key) ++ [now] in
               if (100 <? length pattern)%nat then tl pattern else pattern)
    else accessPatterns c !! k.
Proof.
  unfold updateAccessPattern. simpl.
  destruct (String.eqb_spec k key) as [->|Hne].
  - now rewrite lookup_insert_eq.
  - rewrite lookup_insert_ne by congruence. reflexivity.
Qed.

Lemma updateAccessPattern_bounded c key now :
  (forall k p, accessPatterns c !! k = Some p -> (1 <= length p <= 100)%nat) ->
  forall k p, accessPatterns (updateAccessPattern c key now) !! k = Some p ->
              (1 <= length p <= 100)%nat.
Proof.
  intros Hb k p. rewrite updateAccessPattern_lookup.
  destruct (String.eqb k key); [|apply Hb].
  intros H. injection H as <-.
  assert (Hold : (length (default [] (accessPatterns c !! key)) <= 100)%nat).
  { destruct (accessPatterns c !! key) as [q|] eqn:E; simpl; [|lia].
    apply (Hb key q E). }
  set (old := default [] (accessPatterns c !! key)) in *.
  assert (Hlen : length (old ++ [now]) = S (length old))
    by (rewrite length_app; simpl; lia).
  destruct (Nat.ltb_spec 100 (length (old ++ [now]))) as [Hgt|Hle].
  - destruct (old ++ [now]) as [|x rest]; simpl in *; lia.
  - lia.
Qed.

Lemma step_patterns_bounded c call :
  (forall k p, accessPatterns c !! k = Some p -> (1 <= length p <= 100)%nat) ->
  forall k p, accessPatterns (cstep c call) !! k = Some p ->
              (1 <= length p <= 100)%nat.
Proof.
  intros Hb.
  assert (Hev : forall ks k p,
             accessPatterns (fold_left evict_key ks c) !! k = Some p ->
             (1 <= length p <= 100)%nat).
  { intros ks k p. rewrite patterns_fold_evict.
    destruct (existsb _ ks); [discriminate|apply Hb]. }
  destruct call as [key v tgs now|key now|tag|now|]; unfold step.
  - intros k p. rewrite patterns_set.
    apply updateAccessPattern_bounded.
    destruct (over_budget c); [apply Hev|exact Hb].
  - unfold get. destruct (JsMap.get key (cache c)) as [e|]; [|exact Hb].
    destruct (ttl c <? now - timestamp e); [exact Hb|].
    simpl. now apply updateAccessPattern_bounded.
  - exact Hb.
  - apply Hev.
  - intros k p H. simpl in H. now rewrite lookup_empty in H.
Qed.

Lemma run_patterns_bounded calls c :
  (forall k p, accessPatterns c !! k = Some p -> (1 <= length p <= 100)%nat) ->
  forall k p, accessPatterns (crun c calls) !! k = Some p ->
              (1 <= length p <= 100)%nat.
Proof.
  revert c. induction calls as [|call calls IH]; intros c Hb; [exact Hb|].
  apply (IH (cstep c call)). now apply step_patterns_bounded.
Qed.

(** X1. The ring of access times: on a cache that starts empty, whatever
    calls are made, every key that has an access pattern has between 1 and
    100 times in it. *)
Theorem access_pattern_ring_bounded (options : CacheOptions) (calls : list Call)
    (k : string) (p : list Z) :
  accessPatterns (crun (new_SmartCache options) calls) !! k = Some p ->
  (1 <= length p <= 100)%nat.
Proof.
  apply run_patterns_bounded.
  intros k' p' H. simpl in H. now rewrite lookup_empty in H.
Qed.

Lemma getAccessFrequency_le_length c key now :
  (getAccessFrequency c key now
   <= inject_Z (Z.of_nat (length (default [] (accessPatterns c !! key)))) / 60)%Q.
Proof.
  unfold getAccessFrequency.
  set (pattern := default [] (accessPatterns c !! key)).
  destruct (length pattern <? 2)%nat.
  - apply Qle_shift_div_l; [reflexivity|].
    rewrite Qmult_0_l. change 0%Q with (inject_Z 0). rewrite <- Zle_Qle. lia.
  - apply Qmult_le_compat_r; [|discriminate].
    rewrite <- Zle_Qle. apply Nat2Z.inj_le, filter_length_le.
Qed.

(** X2. The frequency signal of the score: on a cache that starts empty the
    access frequency of a key lies between 0 and 100/60 accesses per second,
    whatever calls were made and whenever it is asked. *)
Theorem access_frequency_bounded (options : CacheOptions) (calls : list Call)
    (key : string) (now : Z) :
  (0 <= getAccessFrequency (crun (new_SmartCache options) calls) key now
   /\ getAccessFrequency (crun (new_SmartCache options) calls) key now <= 100 / 60)%Q.
Proof.
  split; [apply getAccessFrequency_nonneg|].
  eapply Qle_trans; [apply getAccessFrequency_le_length|].
  apply Qmult_le_compat_r; [|discriminate].
  change 100%Q with (inject_Z 100). rewrite <- Zle_Qle.
  destruct (accessPatterns (crun (new_SmartCache options) calls) !! key)
    as [p|] eqn:E; simpl; [|lia].
  assert (H : (1 <= length p <= 100)%nat).
  { apply (run_patterns_bounded calls (new_SmartCache options)) with (k := key);
      [|exact E].
    intros k' p' H. simpl in H. now rewrite lookup_empty in H. }
  lia.
Qed.

Lemma step_counts c call :
  0 <= hitCount c -> 0 <= missCount c ->
  0 <= hitCount (cstep c call) /\ 0 <= missCount (cstep c call)
  /\ hitCount (cstep c call) + missCount (cstep c call)
     = match call with
       | CallGet _ _ => hitCount c + missCount c + 1
       | CallClear => 0
       | _ => hitCount c + missCount c
       end.
Proof.
  intros Hh Hm.
  destruct call as [key v tgs now|key now|tag|now|]; unfold step.
  - unfold set. simpl.
    destruct (over_budget c); [|lia].
    destruct (counts_fold_evict (victims c now) c) as [E1 E2].
    unfold intelligentEviction. rewrite E1, E2. lia.
  - unfold get. destruct (JsMap.get key (cache c)) as [e|]; [|simpl; lia].
    destruct (ttl c <? now - timestamp e); simpl; lia.
  - simpl. lia.
  - unfold cleanup.
    destruct (counts_fold_evict
                (List.map fst
                   (List.filter (fun ke => ttl c <? now - timestamp (snd ke))
                      (cache c))) c) as [E1 E2].
    rewrite E1, E2. lia.
  - simpl. lia.
Qed.

Lemma run_counts calls c :
  0 <= hitCount c -> 0 <= missCount c ->
  0 <= hitCount (crun c calls) /\ 0 <= missCount (crun c calls)
  /\ hitCount (crun c calls) + missCount (crun c calls)
     = gets_since_clear calls (hitCount c + missCount c).
Proof.
  revert c. induction calls as [|call calls IH]; intros c Hh Hm.
  - simpl. lia.
  - destruct (step_counts c call Hh Hm) as (Hh' & Hm' & Hsum).
    destruct (IH (cstep c call) Hh' Hm') as (H1 & H2 & H3).
    change (crun c (call :: calls)) with (crun (cstep c call) calls).
    split; [exact H1|]. split; [exact H2|].
    rewrite H3, Hsum. now destruct call.
Qed.


Lemma hitRate_bounds (c : SmartCache T) :
  0 <= hitCount c -> 0 <= missCount c -> (0 <= hitRate c /\ hitRate c <= 1)%Q.
Proof.
  intros Hh Hm. unfold hitRate.
  destruct (Z.ltb_spec 0 (hitCount c + missCount c)) as [Hpos|Hz].
  - assert (Hq : (0 < inject_Z (hitCount c + missCount c))%Q)
      by (change 0%Q with (inject_Z 0); rewrite <- Zlt_Qlt; exact Hpos).
    split.
    + apply Qle_shift_div_l; [exact Hq|].
      rewrite Qmult_0_l. change 0%Q with (inject_Z 0). now rewrite <- Zle_Qle.
    + apply Qle_shift_div_r; [exact Hq|].
      rewrite Qmult_1_l. rewrite <- Zle_Qle. lia.
  - split; [apply Qle_refl|discriminate].
Qed.

(** X4. The hit rate of [getStats]: on a cache that starts empty it is a
    number between 0 and 1 after any calls, and it is 0, not a division by
    zero, while no [get] was made since the last [clear]. *)
Theorem hitRate_in_unit_interval (options : CacheOptions) (calls : list Call) :
  let c := crun (new_SmartCache options) calls in
  (0 <= hitRate c /\ hitRate c <= 1)%Q
  /\ (gets_since_clear calls 0 = 0 -> hitRate c = 0%Q).
Proof.
  intros c.
  destruct (run_counts calls (new_SmartCache options)) as (Hh & Hm & Hsum);
    [simpl; lia|simpl; lia|].
  fold c in Hh, Hm, Hsum. split.
  - now apply hitRate_bounds.
  - intros Hz.
    assert (Hsum' : hitCount c + missCount c = gets_since_clear calls 0)
      by exact Hsum.
    unfold hitRate. rewrite Hsum', Hz. reflexivity.
Qed.

(** ** The most read keys *)

Lemma sorted_prefix_highest (l : list (string * Q)) (n : nat) k1 s1 k2 s2 :
  List.NoDup (List.map fst l) ->
  In (k1, s1) l -> In (k2, s2) l ->
  In k1 (List.map fst (firstn n (sort_desc l))) ->
  ~ In k2 (List.map fst (firstn n (sort_desc l))) ->
  (s2 <= s1)%Q.
Proof.
  intros Hnd H1 H2 Hin Hout.
  assert (Huniq : forall k s s', In (k, s) l -> In (k, s') l -> s = s').
  { clear -Hnd. induction l as [|[k0 s0] l IH]; simpl; [tauto|].
    intros k s s' Hs Hs'. simpl in Hnd.
    apply List.NoDup_cons_iff in Hnd as [Hnotin Hnd].
    destruct Hs as [Es|Hs], Hs' as [Es'|Hs'].
    - congruence.
    - injection Es as -> ->. exfalso. apply Hnotin.
      change k with (fst (k, s')). now apply in_map.
    - injection Es' as -> ->. exfalso. apply Hnotin.
      change k with (fst (k, s)). now apply in_map.
    - now apply (IH Hnd k). }
  assert (Hin1 : In (k1, s1) (firstn n (sort_desc l))).
  { apply in_map_iff in Hin as [[k s] [E Hin]]. simpl in E. subst k.
    assert (Hs : In (k1, s) l).
    { apply (Permutation_in _ (sort_desc_perm l)).
      rewrite <- (firstn_skipn n). apply in_or_app. now left. }
    now rewrite (Huniq _ _ _ H1 Hs). }
  assert (Hin2 : In (k2, s2) (skipn n (sort_desc l))).
  { assert (Hs : In (k2, s2) (sort_desc l))
      by (apply (Permutation_in _ (Permutation_sym (sort_desc_perm l))); exact H2).
    rewrite <- (firstn_skipn n (sort_desc l)) in Hs.
    apply in_app_or in Hs as [Hs|Hs]; [|exact Hs].
    exfalso. apply Hout. apply in_map_iff. now exists (k2, s2). }
  apply (sorted_firstn_skipn n _ _ _ (sort_desc_sorted l) Hin1 Hin2).
Qed.

(** X5. [topKeys] of [getStats] lists [min 10 n] of the [n] keys of the
    table, each once, and every key it leaves out was read at most as often
    as every key it lists. *)
Theorem topKeys_are_most_read c :
  JsMap.wf (cache c) ->
  length (topKeys c) = Nat.min 10 (length (cache c))
  /\ List.NoDup (topKeys c)
  /\ incl (topKeys c) (JsMap.keys (cache c))
  /\ (forall k1 e1 k2 e2,
        JsMap.get k1 (cache c) = Some e1 -> JsMap.get k2 (cache c) = Some e2 ->
        In k1 (topKeys c) -> ~ In k2 (topKeys c) ->
        accessCount e2 <= accessCount e1).
Proof.
  intros Hwf.
  set (l := List.map (fun ke : string * SmartCacheEntry T =>
                        (fst ke, inject_Z (accessCount (snd ke)))) (cache c)).
  assert (Hkeys : List.map fst l = JsMap.keys (cache c)).
  { unfold l, JsMap.keys. rewrite List.map_map. reflexivity. }
  assert (Hperm : Permutation (List.map fst (sort_desc l)) (JsMap.keys (cache c))).
  { rewrite <- Hkeys. apply Permutation_map, sort_desc_perm. }
  unfold topKeys. fold l. split; [|split; [|split]].
  - rewrite length_map, length_firstn, (Permutation_length (sort_desc_perm l)).
    unfold l. now rewrite length_map.
  - rewrite <- firstn_map.
    apply (Permutation_NoDup (Permutation_sym Hperm)) in Hwf.
    rewrite <- (firstn_skipn 10) in Hwf.
    now apply List.NoDup_app_remove_r in Hwf.
  - intros k Hk. apply (Permutation_in _ Hperm).
    rewrite <- firstn_map in Hk. rewrite <- (firstn_skipn 10).
    apply in_or_app. now left.
  - intros k1 e1 k2 e2 H1 H2 Hin Hout.
    rewrite Zle_Qle.
    apply (sorted_prefix_highest l 10 k1 _ k2 _); try assumption.
    + rewrite Hkeys. exact Hwf.
    + unfold l. apply in_map_iff. exists (k1, e1).
      split; [reflexivity|now apply JsMapFacts.get_In].
    + unfold l. apply in_map_iff. exists (k2, e2).
      split; [reflexivity|now apply JsMapFacts.get_In].
Qed.

(** ** What the removals leave as it is *)

Lemma get_filter_keys (ks : list string) k (m : list (string * SmartCacheEntry T)) :
  JsMap.wf m ->
  JsMap.get k (List.filter (survives ks) m)
  = if existsb (String.eqb k) ks then None else JsMap.get k m.
Proof.
  intros Hwf. destruct (JsMap.get k m) as [e|] eqn:E.
  - rewrite (JsMapFacts.get_filter _ k e m Hwf E). unfold survives. simpl.
    now destruct (existsb (String.eqb k) ks).
  - rewrite (JsMapFacts.get_filter_None _ k m E).
    now destruct (existsb (String.eqb k) ks).
Qed.

Lemma existsb_eqb_In k (ks : list string) :
  existsb (String.eqb k) ks = true <-> In k ks.
Proof.
  rewrite existsb_exists. split.
  - intros (x & Hx & E). apply String.eqb_eq in E. now subst x.
  - intros H. exists k. split; [exact H|apply String.eqb_refl].
Qed.

(** X6. [intelligentEviction] touches its victims only: every other key
    keeps its entry and its access pattern, and the counters stay. *)
Theorem eviction_spares_the_rest c now (k : string) :
  JsMap.wf (cache c) -> ~ In k (victims c now) ->
  JsMap.get k (cache (intelligentEviction c now)) = JsMap.get k (cache c)
  /\ accessPatterns (intelligentEviction c now) !! k = accessPatterns c !! k
  /\ hitCount (intelligentEviction c now) = hitCount c
  /\ missCount (intelligentEviction c now) = missCount c.
Proof.
  intros Hwf Hout.
  assert (Hmem : existsb (String.eqb k) (victims c now) = false).
  { destruct (existsb _ _) eqn:E; [|reflexivity].
    now apply existsb_eqb_In in E. }
  split; [|split].
  - rewrite cache_intelligentEviction, (get_filter_keys _ _ _ Hwf).
    now rewrite Hmem.
  - unfold intelligentEviction. now rewrite patterns_fold_evict, Hmem.
  - apply counts_fold_evict.
Qed.

Lemma expired_keys_mem c now k e :
  JsMap.wf (cache c) -> JsMap.get k (cache c) = Some e ->
  existsb (String.eqb k)
    (List.map fst
       (List.filter (fun ke => ttl c <? now - timestamp (snd ke)) (cache c)))
  = (ttl c <? now - timestamp e).
Proof.
  intros Hwf Hget.
  destruct (ttl c <? now - timestamp e) eqn:Ex.
  - apply existsb_eqb_In. apply in_map_iff. exists (k, e).
    split; [reflexivity|]. apply filter_In.
    split; [now apply JsMapFacts.get_In|exact Ex].
  - destruct (existsb _ _) eqn:E; [|reflexivity].
    apply existsb_eqb_In, in_map_iff in E as [[k' e'] [Ek Hin]].
    simpl in Ek. subst k'. apply filter_In in Hin as [Hin Hex]. simpl in Hex.
    apply (JsMapFacts.In_get _ _ _ Hwf) in Hin. congruence.
Qed.

(** X7. [cleanup], the sweep of the timer: an entry that has outlived the
    time to live is removed together with its access pattern; an entry that
    has not keeps its place, its fields and its access pattern; so nothing
    that is left after the sweep has expired. *)
Theorem cleanup_removes_the_expired c now :
  JsMap.wf (cache c) ->
  (forall k e, JsMap.get k (cache c) = Some e -> ttl c < now - timestamp e ->
     JsMap.get k (cache (cleanup c now)) = None
     /\ accessPatterns (cleanup c now) !! k = None)
  /\ (forall k e, JsMap.get k (cache c) = Some e -> now - timestamp e <= ttl c ->
       JsMap.get k (cache (cleanup c now)) = Some e
       /\ accessPatterns (cleanup c now) !! k = accessPatterns c !! k)
  /\ (forall k e, JsMap.get k (cache (cleanup c now)) = Some e ->
       now - timestamp e <= ttl c).
Proof.
  intros Hwf.
  assert (Hcase : forall k e, JsMap.get k (cache c) = Some e ->
            JsMap.get k (cache (cleanup c now))
            = (if ttl c <? now - timestamp e then None else Some e)
            /\ accessPatterns (cleanup c now) !! k
               = (if ttl c <? now - timestamp e then None
                  else accessPatterns c !! k)).
  { intros k e Hget. split.
    - rewrite cache_cleanup, (get_filter_keys _ _ _ Hwf).
      now rewrite (expired_keys_mem c now k e Hwf Hget), Hget.
    - unfold cleanup. rewrite patterns_fold_evict.
      now rewrite (expired_keys_mem c now k e Hwf Hget). }
  split; [|split].
  - intros k e Hget Hexp. destruct (Hcase k e Hget) as [H1 H2].
    destruct (Z.ltb_spec (ttl c) (now - timestamp e)); [tauto|lia].
  - intros k e Hget Hlive. destruct (Hcase k e Hget) as [H1 H2].
    destruct (Z.ltb_spec (ttl c) (now - timestamp e)); [lia|tauto].
  - intros k e Hget.
    assert (Hold : JsMap.get k (cache c) = Some e).
    { rewrite cache_cleanup in Hget.
      apply JsMapFacts.get_In, filter_In in Hget as [Hin _].
      now apply JsMapFacts.In_get. }
    destruct (Hcase k e Hold) as [H1 _]. rewrite Hget in H1.
    destruct (Z.ltb_spec (ttl c) (now - timestamp e)); [discriminate|lia].
Qed.

(** X8. [invalidateByTag] leaves alone what does not carry the tag: such an
    entry, in particular one set without tags, is still in the table
    afterwards, and no access pattern and no counter changes. *)
Theorem invalidateByTag_spares_other_tags c (tag : string) :
  JsMap.wf (cache c) ->
  (forall k e, JsMap.get k (cache c) = Some e -> has_tag tag e = false ->
     JsMap.get k (cache (invalidateByTag c tag)) = Some e)
  /\ (forall k e, JsMap.get k (cache c) = Some e -> tags e = None ->
       JsMap.get k (cache (invalidateByTag c tag)) = Some e)
  /\ accessPatterns (invalidateByTag c tag) = accessPatterns c
  /\ hitCount (invalidateByTag c tag) = hitCount c
  /\ missCount (invalidateByTag c tag) = missCount c.
Proof.
  intros Hwf.
  assert (H : forall k e, JsMap.get k (cache c) = Some e -> has_tag tag e = false ->
                JsMap.get k (cache (invalidateByTag c tag)) = Some e).
  { intros k e Hget Htag. simpl.
    rewrite (JsMapFacts.get_filter _ k e _ Hwf Hget). simpl. now rewrite Htag. }
  split; [exact H|]. split; [|simpl; tauto].
  intros k e Hget Hnone. apply H; [exact Hget|].
  unfold has_tag. now rewrite Hnone.
Qed.

(** X9. A [get] touches one key: the entries and the access patterns of all
    other keys stay as they are; a hit keeps the order of the table and
    leaves the entry read with one more access, last accessed at the time of
    the call. *)
Theorem get_touches_one_key c key now :
  (forall k, k <> key ->
     JsMap.get k (cache (snd (cget c key now))) = JsMap.get k (cache c)
     /\ accessPatterns (snd (cget c key now)) !! k = accessPatterns c !! k)
  /\ (forall v, fst (cget c key now) = Some v ->
       JsMap.keys (cache (snd (cget c key now))) = JsMap.keys (cache c)
       /\ exists e,
            JsMap.get key (cache c) = Some e
            /\ now - timestamp e <= ttl c
            /\ JsMap.get key (cache (snd (cget c key now)))
               = Some {| value := value e; timestamp := timestamp e;
                         accessCount := accessCount e + 1;
                         lastAccessed := now;
                         size := size e; tags := tags e |}).
Proof.
  unfold get. destruct (JsMap.get key (cache c)) as [e|] eqn:E.
  - destruct (Z.ltb_spec (ttl c) (now - timestamp e)) as [Hexp|Hlive]; simpl.
    + split; [|discriminate].
      intros k Hne. split; [|reflexivity].
      apply JsMapFacts.get_delete_ne. congruence.
    + split.
      * intros k Hne. split.
        -- apply JsMapFacts.get_set_ne. congruence.
        -- rewrite lookup_insert_ne by congruence. reflexivity.
      * intros v _. split.
        -- rewrite JsMapFacts.keys_set. unfold JsMap.has. now rewrite E.
        -- exists e. split; [reflexivity|]. split; [exact Hlive|].
           apply JsMapFacts.get_set_eq.
  - simpl. split; [tauto|discriminate].
Qed.

(** ** Ties in the eviction order *)





(** ** The history of a key that [get] has purged *)

(** X11. The access pattern of a key outlives the lazy purge and is taken up
    again: when [get] finds the entry of [key] expired it removes the entry
    only, and the next [set] of [key] appends its time to the pattern that
    the purged entry left, dropping the oldest time of a pattern that held
    100 already, whether or not this [set] evicts. *)
Theorem reset_inherits_history c key (v : T) tgs now1 now2
    (e : SmartCacheEntry T) (p : list Z) :
  JsMap.get key (cache c) = Some e -> ttl c < now1 - timestamp e ->
  accessPatterns c !! key = Some p ->
  let c1 := snd (cget c key now1) in
  fst (cget c key now1) = None
  /\ JsMap.get key (cache c1) = None
  /\ accessPatterns (cset c1 key v tgs now2) !! key
     = Some (if (100 <? length (p ++ [now2]))%nat
             then tl (p ++ [now2]) else p ++ [now2])
  /\ ((length p < 100)%nat ->
      accessPatterns (cset c1 key v tgs now2) !! key = Some (p ++ [now2])).
Proof.
  intros Hget Hexp Hp c1.
  assert (Hc1 : cget c key now1
                = (None, with_counts (with_cache c (JsMap.delete key (cache c)))
                           (hitCount c) (missCount c + 1))).
  { unfold get. rewrite Hget.
    destruct (Z.ltb_spec (ttl c) (now1 - timestamp e)); [reflexivity|lia]. }
  subst c1. rewrite Hc1. simpl fst. simpl snd.
  set (c1 := with_counts _ _ _).
  assert (Hgone : JsMap.get key (cache c1) = None)
    by apply JsMapFacts.get_delete_eq.
  assert (Hold : accessPatterns
                   (if over_budget c1 then intelligentEviction c1 now2 else c1)
                 !! key = Some p).
  { destruct (over_budget c1); [|exact Hp].
    unfold intelligentEviction. rewrite patterns_fold_evict.
    destruct (existsb (String.eqb key) (victims c1 now2)) eqn:E; [|exact Hp].
    apply existsb_eqb_In, victims_incl in E.
    now apply JsMapFacts.get_None_keys in Hgone. }
  assert (Hnew : accessPatterns (cset c1 key v tgs now2) !! key
                 = Some (if (100 <? length (p ++ [now2]))%nat
                         then tl (p ++ [now2]) else p ++ [now2])).
  { rewrite patterns_set, updateAccessPattern_lookup, String.eqb_refl.
    now rewrite Hold. }
  split; [reflexivity|]. split; [exact Hgone|]. split; [exact Hnew|].
  intros Hlen. rewrite Hnew. f_equal.
  destruct (Nat.ltb_spec 100 (length (p ++ [now2]))) as [Hgt|_]; [|reflexivity].
  rewrite length_app in Hgt. simpl in Hgt. lia.
Qed.

(** ** [mget] *)



Lemma get_other_key c key now k :
  k <> key -> JsMap.get k (cache (snd (cget c key now))) = JsMap.get k (cache c).
Proof.
  intros Hne. unfold get.
  destruct (JsMap.get key (cache c)) as [e|]; [|reflexivity].
  destruct (ttl c <? now - timestamp e); simpl.
  - apply JsMapFacts.get_delete_ne. congruence.
  - apply JsMapFacts.get_set_ne. congruence.
Qed.





Lemma mget_loop_state reads : forall c results,
  snd (mget_loop decode isCompressed c reads results)
  = crun c (get_calls reads).
Proof.
  induction reads as [|[key now] rest IH]; intros c results; [reflexivity|].
  change (crun c (get_calls ((key, now) :: rest)))
    with (crun (snd (cget c key now)) (get_calls rest)).
  cbn [mget_loop]. destruct (cget c key now) as [ans c'] eqn:Eg.
  now rewrite IH.
Qed.

(** X13. What [mget] does to the cache is what its [get] calls do one after
    the other: it adds no key to the table, and it counts one hit or miss
    for every key asked for, also for a key asked for twice. *)
Theorem mget_is_a_run_of_gets c (reads : list (string * Z)) :
  snd (cmget c reads)
  = crun c (get_calls reads)
  /\ incl (JsMap.keys (cache (snd (cmget c reads)))) (JsMap.keys (cache c))
  /\ hitCount (snd (cmget c reads)) + missCount (snd (cmget c reads))
     = hitCount c + missCount c + Z.of_nat (length reads).
Proof.
  unfold mget. rewrite mget_loop_state.
  split; [reflexivity|]. split.
  - revert c. induction reads as [|[key now] rest IH]; intros c k Hk.
    + exact Hk.
    + change (crun c (get_calls
                        ((key, now) :: rest)))
        with (crun (snd (cget c key now))
                (get_calls rest)) in Hk.
      apply IH in Hk. apply JsMapFacts.has_keys in Hk.
      apply JsMapFacts.has_keys. unfold JsMap.has in *.
      destruct (String.eqb_spec k key) as [->|Hne].
      * destruct (JsMap.get key (cache (snd (cget c key now)))) as [e'|] eqn:E;
          [|discriminate].
        unfold get in E.
        destruct (JsMap.get key (cache c)) eqn:E0; [reflexivity|].
        simpl in E. congruence.
      * now rewrite get_other_key in Hk by exact Hne.
  - revert c. induction reads as [|[key now] rest IH]; intros c.
    + simpl. lia.
    + change (crun c (get_calls ((key, now) :: rest)))
        with (crun (snd (cget c key now)) (get_calls rest)).
      rewrite IH.
      assert (Hone : hitCount (snd (cget c key now)) + missCount (snd (cget c key now))
                     = hitCount c + missCount c + 1).
      { unfold get. destruct (JsMap.get key (cache c)) as [e|]; [|simpl; lia].
        destruct (ttl c <? now - timestamp e); simpl; lia. }
      rewrite Hone. simpl length. lia.
Qed.

(** ** [mset] *)

Lemma cache_set_insert c key (final : T) sz now :
  cache (set_insert c key final sz now)
  = JsMap.set key {| value := final; timestamp := now; accessCount := 0;
                     lastAccessed := now; size := sz; tags := None |} (cache c).
Proof. reflexivity. Qed.

Lemma set_is_insert c key (v : T) now :
  compressionEnabled c && (compressionThreshold <? calculateSize v) = false ->
  over_budget c = false ->
  cset c key v None now = set_insert c key v (calculateSize v) now.
Proof.
  intros Hc Hb. unfold set, set_insert, new_entry, finalValue.
  now rewrite Hc, Hb.
Qed.

(** X14. [mset] of a single entry is [set]: started and then resumed at each
    of its [await]s with nothing in between, the call does what the awaited
    [set(key, value)] does, with or without compression and eviction. *)
Theorem mset_of_one_is_set c key (v : T) now :
  mset calculateSize compress c [(key, v)] now
  = set calculateSize compress c key v None now.
Proof.
  unfold mset, start_all, set_start, set, new_entry, finalValue.
  destruct (compressionEnabled c && (compressionThreshold <? calculateSize v));
    simpl; unfold set_check; destruct (over_budget c); reflexivity.
Qed.

Lemma start_all_without_await entries : forall c now,
  (forall k v, In (k, v) entries ->
     compressionEnabled c && (compressionThreshold <? calculateSize v) = false) ->
  Z.of_nat (length (cache c) + length entries) <= maxSize c ->
  start_all calculateSize compress c entries now
  = (fold_left (fun c' kv => cset c' (fst kv) (snd kv) None now) entries c, []).
Proof.
  induction entries as [|[k v] rest IH]; intros c now Hsmall Hroom; [reflexivity|].
  assert (Hc : compressionEnabled c && (compressionThreshold <? calculateSize v) = false)
    by (apply (Hsmall k); now left).
  assert (Hb : over_budget c = false).
  { unfold over_budget. apply Z.leb_gt. simpl length in Hroom. lia. }
  cbn [start_all fold_left fst snd]. unfold set_start, set_check.
  rewrite Hc, Hb, (set_is_insert c k v now Hc Hb).
  destruct (config_set c k v None now) as (Hm & _ & Hcomp).
  rewrite (set_is_insert c k v now Hc Hb) in Hm, Hcomp.
  rewrite IH; [reflexivity| |].
  - intros k' v' Hin. rewrite Hcomp. apply (Hsmall k'). now right.
  - rewrite Hm, cache_set_insert, JsMapFacts.length_set.
    simpl length in Hroom. destruct (JsMap.has k (cache c)); lia.
Qed.

(** X15. [mset] is the sequence of its [set] calls as long as none of them
    is suspended: when no value is compressed and the table has room for all
    the entries, [mset(entries)] leaves the cache as the awaited calls
    [set(key, value)], in the order of [entries], leave it. *)
Theorem mset_is_sequential_with_room c (entries : list (string * T)) now :
  (forall k v, In (k, v) entries ->
     compressionEnabled c && (compressionThreshold <? calculateSize v) = false) ->
  Z.of_nat (length (cache c) + length entries) <= maxSize c ->
  cmset c entries now
  = fold_left (fun c' kv => cset c' (fst kv) (snd kv) None now) entries c.
Proof.
  intros Hsmall Hroom. unfold mset.
  now rewrite (start_all_without_await entries c now Hsmall Hroom).
Qed.

(** X16. [mset] does not keep the budget: on a full table of [n = maxSize]
    entries, with compression off, [mset] of two keys that are not in the
    table leaves [n - ceil (n * 0.2) + 2] entries.  The first [set] evicts and
    is suspended, the second finds room and inserts, and the first then
    inserts without another look at the budget; up to [n = 5] this is one
    entry more than [maxSize]. *)
Theorem mset_exceeds_budget c k1 k2 (v1 v2 : T) now :
  JsMap.wf (cache c) -> compressionEnabled c = false ->
  maxSize c = Z.of_nat (length (cache c)) -> (1 <= length (cache c))%nat ->
  k1 <> k2 -> JsMap.has k1 (cache c) = false -> JsMap.has k2 (cache c) = false ->
  length (cache (cmset c [(k1, v1); (k2, v2)] now))
  = (length (cache c) - ceil_fifth (length (cache c)) + 2)%nat
  /\ ((length (cache c) <= 5)%nat ->
      Z.of_nat (length (cache (cmset c [(k1, v1); (k2, v2)] now))) = maxSize c + 1).
Proof.
  intros Hwf Hoff Hfull Hn Hne Hk1 Hk2.
  set (n := length (cache c)) in *.
  pose proof (length_intelligentEviction c now Hwf) as Hlen. fold n in Hlen.
  pose proof (ceil_fifth_pos n ltac:(lia)) as Hcf.
  set (c1 := intelligentEviction c now) in *.
  assert (Hb : over_budget c = true)
    by (unfold over_budget; fold n; apply Z.leb_le; lia).
  assert (Hm1 : maxSize c1 = maxSize c) by apply config_fold_evict.
  assert (Hb1 : over_budget c1 = false)
    by (unfold over_budget; rewrite Hm1; apply Z.leb_gt; lia).
  assert (Hgone : forall k, JsMap.has k (cache c) = false ->
                            JsMap.has k (cache c1) = false).
  { intros k Hk. unfold JsMap.has in *.
    destruct (JsMap.get k (cache c)) eqn:E; [discriminate|].
    subst c1. rewrite cache_intelligentEviction.
    now rewrite (JsMapFacts.get_filter_None _ k _ E). }
  assert (Hres : cmset c [(k1, v1); (k2, v2)] now
                 = set_insert (set_insert c1 k2 v2 (calculateSize v2) now)
                     k1 v1 (calculateSize v1) now).
  { unfold mset, start_all, set_start. rewrite Hoff. simpl andb. cbv iota.
    unfold set_check at 1. rewrite Hb. fold c1.
    assert (Hoff1 : compressionEnabled c1 = false)
      by (transitivity (compressionEnabled c);
          [apply config_fold_evict|exact Hoff]).
    rewrite Hoff1. simpl andb. cbv iota.
    unfold set_check. rewrite Hb1. reflexivity. }
  assert (Htotal : length (cache (cmset c [(k1, v1); (k2, v2)] now))
                   = (n - ceil_fifth n + 2)%nat).
  { rewrite Hres, !cache_set_insert, !JsMapFacts.length_set.
    rewrite (Hgone k2 Hk2).
    assert (Hk1' : JsMap.has k1
                     (JsMap.set k2
                        {| value := v2; timestamp := now; accessCount := 0;
                           lastAccessed := now; size := calculateSize v2;
                           tags := None |} (cache c1)) = false).
    { unfold JsMap.has. rewrite JsMapFacts.get_set_ne by congruence.
      apply (Hgone k1 Hk1). }
    rewrite Hk1'. lia. }
  split; [exact Htotal|].
  intros H5. rewrite Htotal, Hfull.
  assert (ceil_fifth n = 1%nat).
  { pose proof (ceil_fifth_spec n). lia. }
  lia.
Qed.

(** ** Sweeping twice *)

Lemma cleanup_leaves_live c now k e :
  JsMap.wf (cache c) -> In (k, e) (cache (cleanup c now)) ->
  (ttl c <? now - timestamp e) = false.
Proof.
  intros Hwf Hin. rewrite cache_cleanup in Hin.
  apply filter_In in Hin as [Hin Hs].
  apply (JsMapFacts.In_get _ _ _ Hwf) in Hin.
  unfold survives in Hs. simpl in Hs.
  rewrite (expired_keys_mem c now k e Hwf Hin) in Hs.
  now apply negb_true_iff in Hs.
Qed.

(** X17. A second sweep finds nothing: [cleanup] at a time [later], followed
    by [cleanup] at the same or an earlier time, leaves the cache as the
    first sweep left it. *)
Theorem cleanup_twice_is_cleanup_once c (later now : Z) :
  JsMap.wf (cache c) -> now <= later ->
  cleanup (cleanup c later) now = cleanup c later.
Proof.
  intros Hwf Hle.
  assert (Httl : ttl (cleanup c later) = ttl c) by apply config_fold_evict.
  assert (Hnone : List.filter
                    (fun ke => ttl (cleanup c later) <? now - timestamp (snd ke))
                    (cache (cleanup c later)) = []).
  { rewrite Httl.
    assert (Hall : forall ke, In ke (cache (cleanup c later)) ->
                              (ttl c <? now - timestamp (snd ke)) = false).
    { intros [k e] Hin. simpl.
      pose proof (cleanup_leaves_live c later k e Hwf Hin) as Hlive.
      apply Z.ltb_ge in Hlive. apply Z.ltb_ge. lia. }
    induction (cache (cleanup c later)) as [|ke m IH]; simpl; [reflexivity|].
    rewrite (Hall ke (or_introl eq_refl)). apply IH.
    intros ke' Hin. apply Hall. now right. }
  unfold cleanup at 1. now rewrite Hnone.
Qed.

End SmartCacheFacts.

(** * The claims on the cache of strings *)

Module StrFacts.

(** Five keys fill a cache of capacity 5. *)
Lemma wf_filled :
  JsMap.wf (cache (Str.run (new_SmartCache (Str.options_maxSize 5))
    [CallSet "k1" "v1" None 0; CallSet "k2" "v2" None 1;
     CallSet "k3" "v3" None 2; CallSet "k4" "v4" None 3;
     CallSet "k5" "v5" None 4])).
Proof. apply run_wf. apply List.NoDup_nil. Qed.

End StrFacts.



(** C2 on the default time to live of 300000 ms: the entry set at time 0 is
    read at 300000 and has expired at 300001. *)
Lemma get_ttl_correct_witness :
  let c := Str.run (Str.set (new_SmartCache Str.no_options) "x" "payload" None 0)
             [CallGet "x" 10; CallSet "y" "other" None 20] in
  fst (Str.get c "x" 300001) = None
  /\ JsMap.has "x" (cache (snd (Str.get c "x" 300001))) = false
  /\ fst (Str.get c "x" 300000) = Some "payload"%string.
Proof.
  pose proof (get_ttl_correct Str.calculateSize Str.compress Str.decode
                Str.isCompressed (new_SmartCache Str.no_options)
                "x" "payload" None 0
                [CallGet "x" 10; CallSet "y" "other" None 20]) as H.
  destruct (H 300001 (List.NoDup_nil _) eq_refl) as (Hexp & _ & _ & _).
  destruct (H 300000 (List.NoDup_nil _) eq_refl) as (_ & _ & Hhit & _).
  destruct (Hexp ltac:(simpl; lia)) as [H1 H2].
  split; [exact H1|]. split; [exact H2|].
  apply Hhit; [simpl; lia|reflexivity].
Defined.

(** C3, as stated, fails: a value measuring 12 bytes is stored in a cache
    whose [maxSize] is 2, and a single entry is stored in a cache whose
    [maxSize] is -1; neither call is rejected and both change the table. *)
Lemma set_accepts_oversized_value :
  (let c := new_SmartCache (Str.options_maxSize 2) in
   let v := "0123456789"%string in
   maxSize c < Str.calculateSize v
   /\ cache (Str.set c "k" v None 0) <> cache c
   /\ fst (Str.get (Str.set c "k" v None 0) "k" 0) = Some v)
  /\ (let c := new_SmartCache (Str.options_maxSize (-1)) in
      maxSize c < Z.of_nat (length (cache (Str.set c "k" "v" None 0)))
      /\ cache (Str.set c "k" "v" None 0) <> cache c
      /\ fst (Str.get (Str.set c "k" "v" None 0) "k" 0) = Some "v"%string).
Proof.
  split; simpl; (split; [reflexivity|split; [discriminate|reflexivity]]).
Qed.

(** C4 on a full cache of capacity 5: a sixth key evicts one entry. *)
Lemma eviction_batch_bound_witness :
  let c := Str.run (new_SmartCache (Str.options_maxSize 5))
             [CallSet "k1" "v1" None 0; CallSet "k2" "v2" None 1;
              CallSet "k3" "v3" None 2; CallSet "k4" "v4" None 3;
              CallSet "k5" "v5" None 4] in
  (length (List.filter
             (fun k => negb (JsMap.has k (cache (Str.set c "k6" "v6" None 5))))
             (JsMap.keys (cache c))) <= ceil_fifth 5)%nat
  /\ (length (cache (intelligentEviction c 5)) + ceil_fifth 5 = 5)%nat.
Proof.
  intros c.
  destruct (eviction_batch_bound Str.calculateSize Str.compress c "k6" "v6" None 5
              StrFacts.wf_filled) as (H1 & _ & H3 & _).
  split; [exact H1|exact H3].
Defined.

(** C5, as stated, fails: with [a], [b], [c] set one second apart, read and
    then followed by [d] within a few milliseconds, the eviction removes [a],
    the oldest entry, and keeps [c]. *)
Lemma scenario_evicts_a :
  let acc := [("a", 2001); ("a", 2002); ("a", 2003);
              ("b", 2004); ("b", 2005); ("b", 2006)]%string in
  let s := Str.scenario "A" "B" "C" "D" 0 1000 2000 acc 2007 in
  JsMap.keys (cache s) = ["b"; "c"; "d"]%string
  /\ fst (Str.get s "a" 2008) = None
  /\ fst (Str.get s "c" 2008) = Some "C"%string.
Proof. vm_compute. split; [reflexivity|split; reflexivity]. Qed.

(** C5 (amended) with the three keys set at time 0 and read in mixed
    order. *)
Lemma scenario_evicts_c_witness :
  let acc := [("a", 1); ("b", 2); ("a", 3);
              ("b", 4); ("b", 5); ("a", 6)]%string in
  let s := Str.scenario "A" "B" "C" "D" 0 0 0 acc 7 in
  JsMap.keys (cache s) = ["a"; "b"; "d"]%string
  /\ fst (Str.get s "a" 8) = Some "A"%string
  /\ fst (Str.get s "b" 8) = Some "B"%string
  /\ fst (Str.get s "d" 8) = Some "D"%string
  /\ fst (Str.get s "c" 8) = None.
Proof.
  intros acc s.
  assert (Hall : List.Forall
            (fun kt : string * Z =>
               (fst kt = "a"%string \/ fst kt = "b"%string) /\ 0 <= snd kt <= 7)
            acc)
    by (repeat constructor; simpl; auto; lia).
  pose proof (scenario_evicts_c Str.calculateSize Str.compress Str.decode
                Str.isCompressed "A" "B" "C" 0 7 "D" acc 8) as H.
  specialize (H ltac:(vm_compute; discriminate)).
  specialize (H ltac:(vm_compute; discriminate)).
  specialize (H Hall eq_refl eq_refl).
  specialize (H ltac:(lia) ltac:(lia) ltac:(lia) ltac:(lia)).
  exact (proj2 H).
Defined.

(** C6 on three tagged entries, two of which carry the tag. *)
Lemma invalidateByTag_consistent_witness :
  let c := Str.run (new_SmartCache Str.no_options)
             [CallSet "u1" "ann" (Some ["users"]) 0;
              CallSet "p1" "pen" (Some ["products"]) 1;
              CallSet "u2" "bob" (Some ["users"; "admins"]) 2]%string in
  fst (Str.get (invalidateByTag c "users") "u1" 3) = None
  /\ fst (Str.get (invalidateByTag c "users") "u2" 3) = None.
Proof.
  intros c.
  assert (Hwf : JsMap.wf (cache c)) by (apply run_wf, List.NoDup_nil).
  destruct (invalidateByTag_consistent Str.decode Str.isCompressed c "users" Hwf)
    as [H _].
  split.
  - apply (H "u1"%string
             {| value := "ann"%string; timestamp := 0; accessCount := 0;
                lastAccessed := 0; size := 5; tags := Some ["users"%string] |} 3);
      reflexivity.
  - apply (H "u2"%string
             {| value := "bob"%string; timestamp := 2; accessCount := 0;
                lastAccessed := 2; size := 5;
                tags := Some ["users"; "admins"]%string |} 3);
      reflexivity.
Defined.

(** C7 at its failing inputs: after the lazy purge inside [get] and after
    [invalidateByTag] the entry of [k] is gone while its access pattern is
    still in [accessPatterns]; [cleanup] on the same object removes both. *)
Lemma tracker_outlives_entry :
  let c := Str.set (new_SmartCache Str.no_options) "k" "v" (Some ["t"%string]) 0 in
  (JsMap.has "k" (cache (snd (Str.get c "k" 300001))) = false
   /\ accessPatterns (snd (Str.get c "k" 300001)) !! "k"%string = Some [0])
  /\ (JsMap.has "k" (cache (invalidateByTag c "t")) = false
      /\ accessPatterns (invalidateByTag c "t") !! "k"%string = Some [0])
  /\ (JsMap.has "k" (cache (cleanup c 300001)) = false
      /\ accessPatterns (cleanup c 300001) !! "k"%string = None).
Proof.
  vm_compute.
  split; [split; reflexivity|split; split; reflexivity].
Qed.

(** C8, as stated, fails: the score of an entry that is one second old is
    above 700, while every composite of four signals in [0,1] with the
    weights 0.4, 0.3, 0.2 and 0.1 lies in [0,1]. *)
Lemma score_not_normalized :
  let c := Str.set (new_SmartCache Str.no_options) "a" "A" None 0 in
  exists e,
    JsMap.get "a" (cache c) = Some e
    /\ (700 < score c 1000 "a" e)%Q
    /\ ~ exists idleF freqF ageF sizeF,
           normalized idleF /\ normalized freqF
           /\ normalized ageF /\ normalized sizeF
           /\ (score c 1000 "a" e == spec_composite idleF freqF ageF sizeF)%Q.
Proof.
  intros c. eexists. split; [reflexivity|].
  assert (Hbig : (700 < score c 1000 "a"
      {| value := "A"%string; timestamp := 0; accessCount := 0;
         lastAccessed := 0; size := 3; tags := None |})%Q)
    by (vm_compute; reflexivity).
  split; [exact Hbig|].
  intros (i & f & a & s & [Hi0 Hi1] & [Hf0 Hf1] & [Ha0 Ha1] & [Hs0 Hs1] & Heq).
  rewrite Heq in Hbig. unfold spec_composite in Hbig. lra.
Qed.

(** C9, as stated, fails: no public method of the class is called
    [delete]. *)
Lemma delete_not_exposed : ~ In "delete"%string public_methods.
Proof.
  simpl. intros H. repeat destruct H as [H|H]; try discriminate H. exact H.
Qed.


(** * Witnesses of the further properties, on the cache of strings *)

(** X1 at the bound: after one [set] and 150 reads the pattern of the key
    holds 100 times. *)
Lemma access_pattern_ring_bounded_witness :
  let calls := CallSet "a" "A" None 0
               :: List.map (fun n => CallGet "a" (Z.of_nat n)) (seq 1 150) in
  exists p,
    accessPatterns (Str.run (new_SmartCache Str.no_options) calls) !! "a"%string
    = Some p
    /\ length p = 100%nat /\ (1 <= length p <= 100)%nat.
Proof.
  intros calls. eexists. split; [vm_compute; reflexivity|].
  split; [reflexivity|].
  apply (access_pattern_ring_bounded Str.calculateSize Str.compress Str.decode
           Str.isCompressed Str.no_options calls "a").
  vm_compute. reflexivity.
Defined.

(** X5 on two keys, one read twice and one read once. *)
Lemma topKeys_are_most_read_witness :
  let c := Str.run (new_SmartCache Str.no_options)
             [CallSet "a" "A" None 0; CallSet "b" "B" None 0;
              CallGet "b" 1; CallGet "b" 2; CallGet "a" 3] in
  length (topKeys c) = 2%nat /\ List.NoDup (topKeys c)
  /\ topKeys c = ["b"; "a"]%string.
Proof.
  intros c.
  assert (Hwf : JsMap.wf (cache c)) by (apply run_wf, List.NoDup_nil).
  destruct (topKeys_are_most_read c Hwf) as (H1 & H2 & _).
  split; [exact H1|]. split; [exact H2|reflexivity].
Defined.

(** X6 on a full cache of capacity 5: the oldest key is the victim, the
    third key is spared. *)
Lemma eviction_spares_the_rest_witness :
  let c := Str.run (new_SmartCache (Str.options_maxSize 5))
             [CallSet "k1" "v1" None 0; CallSet "k2" "v2" None 1;
              CallSet "k3" "v3" None 2; CallSet "k4" "v4" None 3;
              CallSet "k5" "v5" None 4] in
  victims c 5 = ["k1"%string]
  /\ JsMap.get "k3" (cache (intelligentEviction c 5)) = JsMap.get "k3" (cache c)
  /\ accessPatterns (intelligentEviction c 5) !! "k3"%string
     = accessPatterns c !! "k3"%string.
Proof.
  intros c.
  assert (Hout : ~ In "k3"%string (victims c 5)).
  { vm_compute. intros [H|[]]. discriminate H. }
  destruct (eviction_spares_the_rest c 5 "k3" StrFacts.wf_filled Hout)
    as (H1 & H2 & _).
  split; [vm_compute; reflexivity|]. split; [exact H1|exact H2].
Defined.

(** X7 on an entry that has expired and one that has not. *)
Lemma cleanup_removes_the_expired_witness :
  let c := Str.run (new_SmartCache Str.no_options)
             [CallSet "old" "o" None 0; CallSet "young" "y" None 200000] in
  JsMap.get "old" (cache (cleanup c 300001)) = None
  /\ accessPatterns (cleanup c 300001) !! "old"%string = None
  /\ JsMap.has "young" (cache (cleanup c 300001)) = true.
Proof.
  intros c.
  assert (Hwf : JsMap.wf (cache c)) by (apply run_wf, List.NoDup_nil).
  destruct (cleanup_removes_the_expired c 300001 Hwf) as (Hexp & Hlive & _).
  destruct (Hexp "old"%string
              {| value := "o"%string; timestamp := 0; accessCount := 0;
                 lastAccessed := 0; size := 3; tags := None |}
              eq_refl ltac:(simpl; lia)) as [H1 H2].
  destruct (Hlive "young"%string
              {| value := "y"%string; timestamp := 200000; accessCount := 0;
                 lastAccessed := 200000; size := 3; tags := None |}
              eq_refl ltac:(simpl; lia)) as [H3 _].
  split; [exact H1|]. split; [exact H2|].
  unfold JsMap.has. now rewrite H3.
Defined.

(** X8 on three tagged entries: the one without the tag stays. *)
Lemma invalidateByTag_spares_other_tags_witness :
  let c := Str.run (new_SmartCache Str.no_options)
             [CallSet "u1" "ann" (Some ["users"]) 0;
              CallSet "p1" "pen" (Some ["products"]) 1;
              CallSet "u2" "bob" None 2]%string in
  JsMap.has "p1" (cache (invalidateByTag c "users")) = true
  /\ JsMap.has "u2" (cache (invalidateByTag c "users")) = true.
Proof.
  intros c.
  assert (Hwf : JsMap.wf (cache c)) by (apply run_wf, List.NoDup_nil).
  destruct (invalidateByTag_spares_other_tags c "users" Hwf) as (H1 & H2 & _).
  split.
  - unfold JsMap.has.
    now rewrite (H1 "p1"%string
                   {| value := "pen"%string; timestamp := 1; accessCount := 0;
                      lastAccessed := 1; size := 5;
                      tags := Some ["products"%string] |} eq_refl eq_refl).
  - unfold JsMap.has.
    now rewrite (H2 "u2"%string
                   {| value := "bob"%string; timestamp := 2; accessCount := 0;
                      lastAccessed := 2; size := 5; tags := None |}
                   eq_refl eq_refl).
Defined.


(** X11 on a key that is set, purged by a late [get] and set again. *)
Lemma reset_inherits_history_witness :
  let c := Str.set (new_SmartCache Str.no_options) "k" "v" None 0 in
  let c1 := snd (Str.get c "k" 300001) in
  JsMap.get "k" (cache c1) = None
  /\ accessPatterns (Str.set c1 "k" "w" None 300002) !! "k"%string
     = Some [0; 300002].
Proof.
  intros c c1.
  destruct (reset_inherits_history Str.calculateSize Str.compress Str.decode
              Str.isCompressed c "k" "w" None 300001 300002
              {| value := "v"%string; timestamp := 0; accessCount := 0;
                 lastAccessed := 0; size := 3; tags := None |} [0]
              eq_refl ltac:(simpl; lia) eq_refl)
    as (_ & H2 & _ & H4).
  split; [exact H2|]. apply H4. simpl. lia.
Defined.


(** X15 on an empty cache of capacity 5 and two entries. *)
Lemma mset_is_sequential_with_room_witness :
  let c := new_SmartCache (Str.options_maxSize 5) in
  mset Str.calculateSize Str.compress c [("a", "A"); ("b", "B")]%string 0
  = Str.set (Str.set c "a" "A" None 0) "b" "B" None 0.
Proof.
  intros c.
  apply (mset_is_sequential_with_room Str.calculateSize Str.compress Str.decode
           Str.isCompressed c [("a", "A"); ("b", "B")]%string 0).
  - intros k v _. reflexivity.
  - simpl. lia.
Defined.

(** X16 on a full cache of capacity 5: six entries after [mset] of two new
    keys. *)
Lemma mset_exceeds_budget_witness :
  let c := Str.run (new_SmartCache (Str.options_maxSize 5))
             [CallSet "k1" "v1" None 0; CallSet "k2" "v2" None 1;
              CallSet "k3" "v3" None 2; CallSet "k4" "v4" None 3;
              CallSet "k5" "v5" None 4] in
  maxSize c = 5
  /\ length (cache (mset Str.calculateSize Str.compress c
                      [("x", "X"); ("y", "Y")]%string 5)) = 6%nat.
Proof.
  intros c.
  destruct (mset_exceeds_budget Str.calculateSize Str.compress c "x" "y" "X" "Y" 5
              StrFacts.wf_filled eq_refl eq_refl ltac:(vm_compute; lia)
              ltac:(discriminate) eq_refl eq_refl) as [H _].
  split; [reflexivity|exact H].
Defined.

(** X17 on an expired and a live entry, swept at 300001 and again at
    300000. *)
Lemma cleanup_twice_is_cleanup_once_witness :
  let c := Str.run (new_SmartCache Str.no_options)
             [CallSet "old" "o" None 0; CallSet "young" "y" None 200000] in
  cleanup (cleanup c 300001) 300000 = cleanup c 300001.
Proof.
  intros c.
  apply (cleanup_twice_is_cleanup_once c 300001 300000).
  - apply run_wf, List.NoDup_nil.
  - lia.
Defined.
